(** * PythonShazzam: a shallow embedding of [music.py]

    The batch pipeline of [music.py] identifies MP3 files, derives a
    [TrackInfo], renames each file to a sanitized target name and rewrites
    its ID3 tags.  This development embeds the string functions, the
    payload extractor, the collision-safe renamer, the tag writer and the
    per-file loop, and proves properties of them.

    Conventions.
    - A Python [str] is a list of Unicode code points ([N]).
    - Cosmetic output ([print], [print_progress], [colored]) is not
      modelled: it neither reads nor changes any value below, and the one
      call that follows the tag stage inside the [try] (line 278) repeats
      the call of line 266 with another status.
    - [pathlib] and [os.path] follow the POSIX flavour.
    - The recognition service, the HTTP client, the operating system and
      the tag library are collaborators: their answers are the fields of
      [Env], and the disk is the state [World]. *)

From Stdlib Require Import NArith ZArith List Bool Lia.
From Stdlib Require Import Ascii String DecimalString DecimalN.
From stdpp Require Import base gmap list.
Import ListNotations.

Local Open Scope N_scope.

(** ** Strings *)

Abbreviation char := N (only parsing).
Abbreviation pystr := (list N) (only parsing).

(** Code points of a literal whose characters are all below 256. *)
Definition u (s : string) : pystr :=
  List.map N_of_ascii (list_ascii_of_string s).

Definition sp : char := 32.
Definition hy : char := 45.
Definition dot : char := 46.

(** [\s] of [re] on [str] patterns and the characters removed by
    [str.strip()]: both use the interpreter's Unicode whitespace table. *)
Definition is_space (c : char) : bool :=
  ((9 <=? c) && (c <=? 13)) || ((28 <=? c) && (c <=? 32))
  || (c =? 133) || (c =? 160) || (c =? 5760)
  || ((8192 <=? c) && (c <=? 8202))
  || (c =? 8232) || (c =? 8233) || (c =? 8239) || (c =? 8287) || (c =? 12288).

(** The class of [INVALID_WIN_RE]: less-than, greater-than, colon, double
    quote, slash, backslash, bar, question mark, star. *)
Definition is_invalid (c : char) : bool :=
  (c =? 60) || (c =? 62) || (c =? 58) || (c =? 34) || (c =? 47)
  || (c =? 92) || (c =? 124) || (c =? 63) || (c =? 42).

(** The characters removed by [.rstrip] with a space and a period. *)
Definition is_space_or_dot (c : char) : bool := (c =? sp) || (c =? dot).

Fixpoint lstrip (p : char -> bool) (s : pystr) : pystr :=
  match s with
  | [] => []
  | c :: r => if p c then lstrip p r else s
  end.

Fixpoint rstrip (p : char -> bool) (s : pystr) : pystr :=
  match s with
  | [] => []
  | c :: r =>
      match rstrip p r with
      | [] => if p c then [] else [c]
      | r' => c :: r'
      end
  end.

(** [s.strip()] *)
Definition strip (s : pystr) : pystr := lstrip is_space (rstrip is_space s).

(** [pattern.sub(repl, s)] for a pattern that never matches the empty
    string: [m s] tries the pattern at the start of [s] and returns what
    is left after the (greedy) match.  A failed attempt copies one
    character.  [fuel] bounds the number of steps; [length s] is enough. *)
Fixpoint re_sub (m : pystr -> option pystr) (repl : pystr)
    (fuel : nat) (s : pystr) : pystr :=
  match fuel with
  | O => s
  | S k =>
      match s with
      | [] => []
      | c :: r =>
          match m s with
          | Some rest => repl ++ re_sub m repl k rest
          | None => c :: re_sub m repl k r
          end
      end
  end.

(** One reserved character at the start of [s]. *)
Definition match_invalid (s : pystr) : option pystr :=
  match s with
  | c :: r => if is_invalid c then Some r else None
  | [] => None
  end.

(** [\s+] at the start of [s]. *)
Definition match_multispace (s : pystr) : option pystr :=
  match s with
  | c :: r => if is_space c then Some (lstrip is_space r) else None
  | [] => None
  end.

(** [\s*-\s*] at the start of [s]. *)
Definition match_hyphen (s : pystr) : option pystr :=
  match lstrip is_space s with
  | c :: r => if c =? hy then Some (lstrip is_space r) else None
  | [] => None
  end.

Definition sub_invalid (s : pystr) : pystr :=
  re_sub match_invalid [sp] (length s) s.

(** [MULTISPACE_RE.sub] with a single space as replacement. *)
Definition sub_multispace (s : pystr) : pystr :=
  re_sub match_multispace [sp] (length s) s.

(** [re.sub] of [\s*-\s*] by space, hyphen, space. *)
Definition sub_hyphen (s : pystr) : pystr :=
  re_sub match_hyphen [sp; hy; sp] (length s) s.

(** Collapse whitespace, [.strip()], then [.rstrip] of spaces and periods:
    lines 53 and 55 of [sanitize_filename]. *)
Definition tidy (s : pystr) : pystr :=
  rstrip is_space_or_dot (strip (sub_multispace s)).

Definition sanitize_core (name : pystr) : pystr :=
  tidy (sub_hyphen (tidy (sub_invalid name))).

Definition sanitize_filename (name : pystr) : pystr :=
  match sanitize_core name with
  | [] => u "untitled"
  | r => r
  end.

(** [.mp3] target names. *)
Definition make_target_filename (artist title : pystr) (album : option pystr)
  : pystr :=
  match album with
  | Some ((_ :: _) as a) =>
      sanitize_filename (artist ++ u " - " ++ title ++ u " - " ++ a ++ u ".mp3")
  | _ => sanitize_filename (artist ++ u " - " ++ title ++ u ".mp3")
  end.

(** ** Python values and exceptions *)

#[local] Unset Elimination Schemes.

(** A decoded JSON value.  A float is kept as its binary64 bit pattern;
    a mapping keeps its items in insertion order, with distinct keys. *)
Inductive pyval : Type :=
| PNone
| PBool (b : bool)
| PInt (z : Z)
| PFloat (bits : Z)
| PStr (s : pystr)
| PList (l : list pyval)
| PDict (d : list (pystr * pyval)).

#[local] Set Elimination Schemes.

(** The classes of the exceptions that occur.  [FuelExhausted] is not a
    Python exception: it marks the end of the fuel of the search in
    [safe_rename], which is never reached ([safe_rename_fuel_enough]). *)
Inductive exn_class : Type :=
| AttributeError | TypeError | ValueError | OSError
| MutagenError | RequestException | FuelExhausted.

(** An exception object; [str(e)] is its message. *)
Record exn : Type := Exn { exn_cls : exn_class; exn_msg : pystr }.

Definition py_str_exn (e : exn) : pystr := exn_msg e.

(** The result of an expression that may raise. *)
Inductive res (A : Type) : Type :=
| Ok (a : A)
| Raise (e : exn).
Arguments Ok {A} a.
Arguments Raise {A} e.

Definition res_bind {A B} (c : res A) (k : A -> res B) : res B :=
  match c with Ok a => k a | Raise e => Raise e end.

Notation "'let?' x ':=' c 'in' k" := (res_bind c (fun x => k))
  (at level 10, x name, c at level 100, k at level 200).

(** [bool(v)] *)
Definition truthy (v : pyval) : bool :=
  match v with
  | PNone => false
  | PBool b => b
  | PInt z => negb (z =? 0)%Z
  | PFloat bits => negb (Z.land bits (2 ^ 63 - 1) =? 0)%Z
  | PStr s => match s with [] => false | _ => true end
  | PList l => match l with [] => false | _ => true end
  | PDict d => match d with [] => false | _ => true end
  end.

(** [a or b] *)
Definition py_or (a b : pyval) : pyval := if truthy a then a else b.

Definition is_dict (v : pyval) : bool :=
  match v with PDict _ => true | _ => false end.

Fixpoint dict_get (d : list (pystr * pyval)) (k : pystr) : option pyval :=
  match d with
  | [] => None
  | (k', v) :: r => if bool_decide (k' = k) then Some v else dict_get r k
  end.

(** [v.get(k, default)]: only mappings have the method. *)
Definition py_get_default (v : pyval) (k : pystr) (default : pyval) : res pyval :=
  match v with
  | PDict d => Ok (match dict_get d k with Some x => x | None => default end)
  | _ => Raise (Exn AttributeError (u "object has no attribute 'get'"))
  end.

(** [v.get(k)] *)
Definition py_get (v : pyval) (k : pystr) : res pyval := py_get_default v k PNone.

(** The items visited by [for x in v]: the elements of a list, the
    characters of a string, the keys of a mapping. *)
Definition py_iter (v : pyval) : res (list pyval) :=
  match v with
  | PList l => Ok l
  | PStr s => Ok (List.map (fun c => PStr [c]) s)
  | PDict d => Ok (List.map (fun kv => PStr (fst kv)) d)
  | _ => Raise (Exn TypeError (u "object is not iterable"))
  end.

(** [str.lower] on one code point.  Code points outside A-Z whose lower
    case is not ASCII are left as they are: the result is only compared
    with an ASCII literal. *)
Definition lower_char (c : char) : pystr :=
  if (65 <=? c) && (c <=? 90) then [c + 32]
  else if c =? 304 then [105; 775]
  else if c =? 8490 then [107]
  else [c].

Definition py_lower (s : pystr) : pystr := flat_map lower_char s.

(** [v.strip().lower()]: only strings have the methods. *)
Definition py_strip_lower (v : pyval) : res pystr :=
  match v with
  | PStr s => Ok (py_lower (strip s))
  | _ => Raise (Exn AttributeError (u "object has no attribute 'strip'"))
  end.

(** [MULTISPACE_RE.sub] with a space, then [.strip()]. *)
Definition normalize (s : pystr) : pystr := strip (sub_multispace s).

(** The same on a value: [re] rejects what is not a string. *)
Definition py_normalize (v : pyval) : res pystr :=
  match v with
  | PStr s => Ok (normalize s)
  | _ => Raise (Exn TypeError (u "expected string or bytes-like object"))
  end.

(** ** Payload extractor *)

Record TrackInfo : Type := mkTrackInfo {
  artist : pystr;
  title : pystr;
  album : option pystr;
  cover_url : pyval
}.

(** The inner loop, lines 128-132: [album] is the variable of the scan. *)
Fixpoint scan_metadata (mds : list pyval) (album : pyval) : res pyval :=
  match mds with
  | [] => Ok album
  | md :: rest =>
      if negb (is_dict md) then scan_metadata rest album
      else
        let? t := py_get md (u "title") in
        let? t' := py_strip_lower (py_or t (PStr [])) in
        if bool_decide (t' = u "album") then
          let? x := py_get md (u "text") in
          scan_metadata rest (py_or x album)
        else scan_metadata rest album
  end.

(** The outer loop, lines 122-127. *)
Fixpoint scan_sections (secs : list pyval) (album : pyval) : res pyval :=
  match secs with
  | [] => Ok album
  | sec :: rest =>
      if negb (is_dict sec) then scan_sections rest album
      else
        let? meta := py_get sec (u "metadata") in
        if negb (truthy meta) then scan_sections rest album
        else
          let? mds := py_iter meta in
          let? album' := scan_metadata mds album in
          scan_sections rest album'
  end.

(** [images.get(coverarthq) or images.get(coverart) or
    images.get(background) or None] *)
Definition pick_cover (images : pyval) : res pyval :=
  let? c1 := py_get images (u "coverarthq") in
  if truthy c1 then Ok c1 else
  let? c2 := py_get images (u "coverart") in
  if truthy c2 then Ok c2 else
  let? c3 := py_get images (u "background") in
  Ok (py_or c3 PNone).

(** The body of the [try] of [extract_trackinfo_from_shazam].  The scan
    stores truthy values only, so a falsy [album] is [None]. *)
Definition extract_body (payload : pyval) : res (option TrackInfo) :=
  let? track0 := py_get payload (u "track") in
  let track := py_or track0 (PDict []) in
  let? title := py_get track (u "title") in
  let? artist := py_get track (u "subtitle") in
  if negb (truthy title) || negb (truthy artist) then Ok None
  else
    let? secs0 := py_get_default track (u "sections") (PList []) in
    let? secs := py_iter (py_or secs0 (PList [])) in
    let? album := scan_sections secs PNone in
    let? images0 := py_get_default track (u "images") (PDict []) in
    let? cover := pick_cover (py_or images0 (PDict [])) in
    let? artist' := py_normalize artist in
    let? title' := py_normalize title in
    let? album' :=
      (if truthy album
       then let? a := py_normalize album in Ok (Some a)
       else Ok None) in
    Ok (Some (mkTrackInfo artist' title' album' cover)).

(** [try: ... except Exception: return None] *)
Definition extract_trackinfo_from_shazam (payload : pyval)
  : res (option TrackInfo) :=
  match extract_body payload with
  | Ok r => Ok r
  | Raise _ => Ok None
  end.

(** ** Files, tags and the outside world *)

(** A [pathlib.Path]: the directory and the final component.  Two paths
    are equal when both are, character by character: the equality of the
    POSIX flavour, on a file system that tells upper case from lower
    case. *)
Record Path : Type := mkPath { parent : pystr; name : pystr }.

Global Instance Path_eq_dec : EqDecision Path.
Proof. solve_decision. Defined.

Global Instance Path_countable : Countable Path.
Proof.
  apply (inj_countable' (fun p => (parent p, name p))
                        (fun x => mkPath (fst x) (snd x))).
  intros []. reflexivity.
Defined.

(** The frames of an ID3 tag that the program touches, and the others. *)
Inductive Frame : Type :=
| TIT2 (text : pystr)
| TPE1 (text : pystr)
| TALB (text : pystr)
| APIC (mime : pystr) (data : list N)
| OtherFrame (id : pystr) (body : list N).

Definition frame_id (f : Frame) : pystr :=
  match f with
  | TIT2 _ => u "TIT2"
  | TPE1 _ => u "TPE1"
  | TALB _ => u "TALB"
  | APIC _ _ => u "APIC"
  | OtherFrame id _ => id
  end.

(** What is on disk: every existing path with its ID3 tag, if it has one. *)
Abbreviation World := (gmap Path (option (list Frame))).

Inductive Recognition : Type :=
| RecPayload (payload : pyval)
| RecTimeout
| RecError (e : exn).

Inductive HttpOutcome : Type :=
| HttpResponse (status : Z) (content : list N)
| HttpTimeout
| HttpTransportError (e : exn).

(** The collaborators: the recognition service, the HTTP client, the
    failures of the operating system and of the tag library, and what a
    save that fails leaves in the file (its old content and the tag to
    write are given). *)
Record Env : Type := mkEnv {
  recognize : Path -> Recognition;
  http_get : pystr -> HttpOutcome;
  rename_error : Path -> Path -> option exn;
  open_error : Path -> option exn;
  save_error : Path -> option exn;
  failed_save : Path -> option (list Frame) -> list Frame -> option (list Frame)
}.

(** ** Stateful code: state, exceptions and [continue] *)

Inductive outcome (A : Type) : Type :=
| Normal (a : A)
| Raised (e : exn)
| Continue.
Arguments Normal {A} a.
Arguments Raised {A} e.
Arguments Continue {A}.

Definition M (S A : Type) : Type := S -> outcome A * S.

Definition ret {S A} (a : A) : M S A := fun s => (Normal a, s).

Definition bind {S A B} (c : M S A) (k : A -> M S B) : M S B :=
  fun s =>
    match c s with
    | (Normal a, s') => k a s'
    | (Raised e, s') => (Raised e, s')
    | (Continue, s') => (Continue, s')
    end.

Definition raise {S A} (e : exn) : M S A := fun s => (Raised e, s).
Definition continue {S A} : M S A := fun s => (Continue, s).
Definition get {S} : M S S := fun s => (Normal s, s).
Definition modify {S} (f : S -> S) : M S unit := fun s => (Normal tt, f s).

Definition lift_res {S A} (r : res A) : M S A :=
  match r with Ok a => ret a | Raise e => raise e end.

(** [try: c except Exception as e: h e] *)
Definition try_except {S A} (c : M S A) (h : exn -> M S A) : M S A :=
  fun s =>
    match c s with
    | (Raised e, s') => h e s'
    | r => r
    end.

Declare Scope m_scope.
Delimit Scope m_scope with M.
Notation "x <- c ;; k" := (bind c (fun x => k))
  (at level 100, c at next level, right associativity) : m_scope.
Notation "c ;; k" := (bind c (fun _ => k))
  (at level 100, right associativity) : m_scope.

(** A computation that never leaves by [continue]. *)
Definition no_continue {S A} (c : M S A) : Prop :=
  forall s, fst (c s) <> Continue.

(** ** Collision-safe renamer *)

Definition slash : char := 47.

(** [src.with_name(n)]: the name must be a single component. *)
Definition with_name (src : Path) (n : pystr) : res Path :=
  if bool_decide (name src = [])
  then Raise (Exn ValueError (u "path has an empty name"))
  else if bool_decide (n = []) || existsb (N.eqb slash) n || bool_decide (n = [dot])
  then Raise (Exn ValueError (u "Invalid name"))
  else Ok (mkPath (parent src) n).

(** [p.exists()] *)
Definition path_exists (w : World) (p : Path) : bool :=
  match w !! p with Some _ => true | None => false end.

(** [src.rename(dest)] *)
Definition path_rename (env : Env) (src dest : Path) : M World unit :=
  fun w =>
    match rename_error env src dest with
    | Some e => (Raised e, w)
    | None =>
        match w !! src with
        | None => (Raised (Exn OSError (u "No such file or directory")), w)
        | Some f => (Normal tt, <[dest := f]> (delete src w))
        end
    end.

(** [os.path.splitext]: the extension starts at the last period of the
    final component, unless only periods come before it. *)
Fixpoint rfind (c : char) (s : pystr) : option nat :=
  match s with
  | [] => None
  | x :: r =>
      match rfind c r with
      | Some i => Some (S i)
      | None => if x =? c then Some O else None
      end
  end.

Definition splitext (p : pystr) : pystr * pystr :=
  match rfind dot p with
  | None => (p, [])
  | Some d =>
      let first := match rfind slash p with Some i => S i | None => O end in
      if (first <? d)%nat
         && negb (forallb (N.eqb dot) (take (d - first) (drop first p)))
      then (take d p, drop d p)
      else (p, [])
  end.

(** [str(i)] for a non-negative integer. *)
Definition py_str_int (i : N) : pystr :=
  u (NilEmpty.string_of_uint (N.to_uint i)).

(** The name tried at step [i]. *)
Definition candidate_name (stem ext : pystr) (i : N) : pystr :=
  stem ++ u " (" ++ py_str_int i ++ u ")" ++ ext.

(** The path tried at step [i]. *)
Definition candidate (src : Path) (stem ext : pystr) (i : N) : Path :=
  mkPath (parent src) (candidate_name stem ext i).

(** A name without separator. *)
Definition no_slash (s : pystr) : Prop := existsb (N.eqb slash) s = false.

(** The [while True] loop of [safe_rename], from [i]: the first candidate
    that does not exist.  [None] when the fuel runs out, which does not
    happen with more fuel than there are paths ([probe_total]). *)
Fixpoint probe (w : World) (src : Path) (stem ext : pystr)
    (fuel : nat) (i : N) : option (res Path) :=
  match fuel with
  | O => None
  | S k =>
      match with_name src (candidate_name stem ext i) with
      | Raise e => Some (Raise e)
      | Ok candidate =>
          if negb (path_exists w candidate) then Some (Ok candidate)
          else probe w src stem ext k (i + 1)
      end
  end.

Definition safe_rename (env : Env) (src : Path) (target_name : pystr)
  : M World Path :=
  (dest <- lift_res (with_name src target_name) ;;
   if bool_decide (dest = src) then ret src
   else
     w <- get ;;
     if negb (path_exists w dest)
     then (path_rename env src dest ;; ret dest)
     else
       let '(stem, ext) := splitext target_name in
       match probe w src stem ext (S (size w)) 1 with
       | Some r =>
           candidate <- lift_res r ;;
           path_rename env src candidate ;;
           ret candidate
       | None => raise (Exn FuelExhausted [])
       end)%M.

(** ** Tag writer *)

Fixpoint starts_with (prefix data : list N) : bool :=
  match prefix, data with
  | [], _ => true
  | x :: p, y :: d => (x =? y) && starts_with p d
  | _ :: _, [] => false
  end.

Definition sniff_image_mime (data : list N) : pystr :=
  if starts_with [255; 216; 255] data then u "image/jpeg"
  else if starts_with [137; 80; 78; 71] data then u "image/png"
  else if starts_with (u "GIF87a") data || starts_with (u "GIF89a") data
  then u "image/gif"
  else u "application/octet-stream".

(** [ensure_id3]: the tag of the file, a new empty one if it has none. *)
Definition ensure_id3 (tags : option (list Frame)) : list Frame :=
  match tags with Some t => t | None => [] end.

(** [tags.delall(id)] *)
Definition delall (id : pystr) (tags : list Frame) : list Frame :=
  List.filter (fun f => negb (bool_decide (frame_id f = id))) tags.

(** [tags.add(frame)], no frame of that kind being present. *)
Definition add_frame (tags : list Frame) (f : Frame) : list Frame := tags ++ [f].

(** [MP3(file_path)]: the tag read from the file. *)
Definition mp3_open (env : Env) (p : Path) : M World (option (list Frame)) :=
  fun w =>
    match open_error env p with
    | Some e => (Raised e, w)
    | None =>
        match w !! p with
        | None => (Raised (Exn MutagenError (u "No such file or directory")), w)
        | Some t => (Normal t, w)
        end
    end.

(** [audio.save(v2_version=3)].  The tag is written into the file in
    place, without a temporary file: a save that fails leaves in the file
    whatever [failed_save] says, the old tag, the new one or anything
    else.  A file that is not there is not created. *)
Definition mp3_save (env : Env) (p : Path) (tags : list Frame) : M World unit :=
  fun w =>
    match save_error env p with
    | Some e =>
        (Raised e,
         match w !! p with
         | Some old => <[p := failed_save env p old tags]> w
         | None => w
         end)
    | None =>
        match w !! p with
        | None => (Raised (Exn MutagenError (u "No such file or directory")), w)
        | Some _ => (Normal tt, <[p := Some tags]> w)
        end
    end.

(** [r.raise_for_status()]: client and server error codes raise. *)
Definition raise_for_status (status : Z) : res unit :=
  if ((400 <=? status) && (status <? 600))%Z
  then Raise (Exn RequestException (u "HTTP error"))
  else Ok tt.

(** Lines 102-104: [requests.get], [raise_for_status], [r.content].
    [requests] rejects a URL that is not a string with a scheme. *)
Definition fetch_cover (env : Env) (url : pyval) : res (list N) :=
  match url with
  | PStr s =>
      match http_get env s with
      | HttpResponse status content =>
          let? _ := raise_for_status status in Ok content
      | HttpTimeout => Raise (Exn RequestException (u "timed out"))
      | HttpTransportError e => Raise e
      end
  | _ => Raise (Exn RequestException (u "Invalid URL"))
  end.

(** Lines 99-108: the frames and [art_ok] after the cover block. *)
Definition embed_cover (env : Env) (track : TrackInfo) (tags : list Frame)
  : list Frame * bool :=
  if truthy (cover_url track) then
    match fetch_cover env (cover_url track) with
    | Ok data => (add_frame tags (APIC (sniff_image_mime data) data), true)
    | Raise _ => (tags, false)
    end
  else (tags, false).

Definition update_tags (env : Env) (file_path : Path) (track : TrackInfo)
  : M World (bool * bool) :=
  (tags0 <- mp3_open env file_path ;;
   let tags := ensure_id3 tags0 in
   let tags := delall (u "APIC") (delall (u "TALB")
                 (delall (u "TPE1") (delall (u "TIT2") tags))) in
   let tags := add_frame tags (TIT2 (title track)) in
   let tags := add_frame tags (TPE1 (artist track)) in
   let tags := match album track with
               | Some ((_ :: _) as a) => add_frame tags (TALB a)
               | _ => tags
               end in
   let '(tags, art_ok) := embed_cover env track tags in
   mp3_save env file_path tags ;;
   ret (true, art_ok))%M.

(** ** Per-file pipeline and batch *)

Record FileResult : Type := mkFileResult {
  src_name : pystr;
  dest_name : pystr;
  identified : bool;
  renamed : bool;
  tags_ok : bool;
  art_ok : bool;
  skipped : bool;
  error : option pystr
}.

Definition new_result (n : pystr) : FileResult :=
  mkFileResult n n false false false false false None.

Definition set_skipped (b : bool) (r : FileResult) : FileResult :=
  mkFileResult (src_name r) (dest_name r) (identified r) (renamed r)
               (tags_ok r) (art_ok r) b (error r).
Definition set_identified (b : bool) (r : FileResult) : FileResult :=
  mkFileResult (src_name r) (dest_name r) b (renamed r)
               (tags_ok r) (art_ok r) (skipped r) (error r).
Definition set_dest_name (n : pystr) (r : FileResult) : FileResult :=
  mkFileResult (src_name r) n (identified r) (renamed r)
               (tags_ok r) (art_ok r) (skipped r) (error r).
Definition set_renamed (b : bool) (r : FileResult) : FileResult :=
  mkFileResult (src_name r) (dest_name r) (identified r) b
               (tags_ok r) (art_ok r) (skipped r) (error r).
Definition set_tags_ok (b : bool) (r : FileResult) : FileResult :=
  mkFileResult (src_name r) (dest_name r) (identified r) (renamed r)
               b (art_ok r) (skipped r) (error r).
Definition set_art_ok (b : bool) (r : FileResult) : FileResult :=
  mkFileResult (src_name r) (dest_name r) (identified r) (renamed r)
               (tags_ok r) b (skipped r) (error r).
Definition set_error (e : option pystr) (r : FileResult) : FileResult :=
  mkFileResult (src_name r) (dest_name r) (identified r) (renamed r)
               (tags_ok r) (art_ok r) (skipped r) e.

Record Args : Type := mkArgs { dry_run : bool; verbose : bool }.

(** [shazam_identify_file]: a timeout, a failure, an empty payload and
    an unusable payload all give [None]. *)
Definition shazam_identify_file (env : Env) (file_path : Path)
  : option TrackInfo :=
  match recognize env file_path with
  | RecPayload payload =>
      if negb (truthy payload) then None
      else match extract_trackinfo_from_shazam payload with
           | Ok r => r
           | Raise _ => None
           end
  | RecTimeout => None
  | RecError _ => None
  end.

(** The variables of [process_files_async] that the loop changes, and
    the disk. *)
Record State : Type := mkState {
  world : World;
  result : FileResult;
  results : list FileResult;
  processed : nat;
  unidentified : nat;
  errors : nat
}.

Definition set_world (w : World) (s : State) : State :=
  mkState w (result s) (results s) (processed s) (unidentified s) (errors s).
Definition upd_result (f : FileResult -> FileResult) (s : State) : State :=
  mkState (world s) (f (result s)) (results s) (processed s)
          (unidentified s) (errors s).
Definition append_result (s : State) : State :=
  mkState (world s) (result s) (results s ++ [result s]) (processed s)
          (unidentified s) (errors s).
Definition incr_processed (s : State) : State :=
  mkState (world s) (result s) (results s) (S (processed s))
          (unidentified s) (errors s).
Definition incr_unidentified (s : State) : State :=
  mkState (world s) (result s) (results s) (processed s)
          (S (unidentified s)) (errors s).
Definition incr_errors (s : State) : State :=
  mkState (world s) (result s) (results s) (processed s)
          (unidentified s) (S (errors s)).

(** An operation on the disk, run inside the loop. *)
Definition on_world {A} (c : M World A) : M State A :=
  fun s =>
    match c (world s) with
    | (Normal a, w) => (Normal a, set_world w s)
    | (Raised e, w) => (Raised e, set_world w s)
    | (Continue, w) => (Continue, set_world w s)
    end.

(** Lines 234-278: the [try] block for one file. *)
Definition try_block (env : Env) (args : Args) (orig_path : Path)
  : M State unit :=
  match shazam_identify_file env orig_path with
  | None =>
      (modify (upd_result (set_skipped true)) ;;
       modify incr_unidentified ;;
       modify append_result ;;
       continue)%M
  | Some ti =>
      (modify (upd_result (set_identified true)) ;;
       let new_name := make_target_filename (artist ti) (title ti) (album ti) in
       path <-
         (if negb (bool_decide (new_name = name orig_path)) && negb (dry_run args)
          then
            path <- on_world (safe_rename env orig_path new_name) ;;
            modify (upd_result (set_dest_name (name path))) ;;
            modify (upd_result (set_renamed true)) ;;
            ret path
          else ret orig_path) ;;
       (if negb (dry_run args)
        then
          r <- on_world (update_tags env path ti) ;;
          modify (upd_result (set_tags_ok (fst r))) ;;
          modify (upd_result (set_art_ok (snd r)))
        else
          modify (upd_result (set_tags_ok true)) ;;
          modify (upd_result (set_art_ok (truthy (cover_url ti))))) ;;
       modify incr_processed)%M
  end.

(** Lines 227-289: one iteration of the loop. *)
Definition loop_body (env : Env) (args : Args) (orig_path : Path)
  : M State unit :=
  (modify (upd_result (fun _ => new_result (name orig_path))) ;;
   try_except (try_block env args orig_path)
     (fun e =>
        modify incr_errors ;;
        modify (upd_result (set_error (Some (py_str_exn e))))) ;;
   modify append_result)%M.

(** The [for] loop: [continue] and normal completion both go on to the
    next file; nothing escapes the [try]. *)
Fixpoint run_loop (env : Env) (args : Args) (files : list Path) (s : State)
  : State :=
  match files with
  | [] => s
  | f :: rest => run_loop env args rest (snd (loop_body env args f s))
  end.

Record Summary : Type := mkSummary {
  sum_results : list FileResult;
  sum_processed : nat;
  sum_unidentified : nat;
  sum_errors : nat;
  sum_total : nat
}.

Definition initial_state (w : World) : State :=
  mkState w (new_result []) [] O O O.

(** [process_files_async]: the summary, and the disk afterwards. *)
Definition process_files_async (env : Env) (args : Args) (files : list Path)
    (w : World) : Summary * World :=
  let s := run_loop env args files (initial_state w) in
  (mkSummary (results s) (processed s) (unidentified s) (errors s)
             (length files), world s).

(** ** Tokens: the words of a name

    [toks false [] s] are the maximal runs of non-whitespace characters of
    [s]; [toks true [] s] further makes every hyphen a token of its own.
    [cur] is the token being read. *)

Definition flush (cur : pystr) : list pystr :=
  match cur with [] => [] | _ => [cur] end.

Fixpoint toks (h : bool) (cur : pystr) (s : pystr) : list pystr :=
  match s with
  | [] => flush cur
  | c :: r =>
      if is_space c then flush cur ++ toks h [] r
      else if h && (c =? hy) then flush cur ++ [hy] :: toks h [] r
      else toks h (cur ++ [c]) r
  end.

Fixpoint unwords (ts : list pystr) : pystr :=
  match ts with
  | [] => []
  | t :: ts' => match ts' with [] => t | _ => t ++ sp :: unwords ts' end
  end.

(** A character that extends the current token. *)
Definition plain (h : bool) (c : char) : Prop :=
  is_space c = false /\ (h = true -> c <> hy).

(** A well-formed token. *)
Definition good (h : bool) (t : pystr) : Prop :=
  t <> [] /\ ((h = true /\ t = [hy]) \/ Forall (plain h) t).

Definition valid (c : char) : Prop := is_invalid c = false.

(** The string starts with a character that is not whitespace. *)
Definition starts_nonspace (s : pystr) : Prop :=
  match s with c :: _ => is_space c = false | [] => False end.

(** ** Album discovery, stated on the payload

    The values that the extractor reads, as total functions, and two
    descriptions of the album: the one of the specification and the one
    that the loops compute. *)

(** [payload.get(track) or {}], [PNone] when the call raises. *)
Definition track_of (payload : pyval) : pyval :=
  match py_get payload (u "track") with
  | Ok t => py_or t (PDict [])
  | Raise _ => PNone
  end.

(** [track.get(k)], [PNone] when the call raises. *)
Definition track_field (payload : pyval) (k : pystr) : pyval :=
  match py_get (track_of payload) k with
  | Ok v => v
  | Raise _ => PNone
  end.

(** The sections visited by the outer loop. *)
Definition sections_of (payload : pyval) : list pyval :=
  match py_get_default (track_of payload) (u "sections") (PList []) with
  | Ok s0 =>
      match py_iter (py_or s0 (PList [])) with
      | Ok l => l
      | Raise _ => []
      end
  | Raise _ => []
  end.

(** The metadata entries visited by the inner loop for one section. *)
Definition section_metadata (sec : pyval) : list pyval :=
  match sec with
  | PDict d =>
      match dict_get d (u "metadata") with
      | Some meta =>
          if truthy meta
          then match py_iter meta with Ok l => l | Raise _ => [] end
          else []
      | None => []
      end
  | _ => []
  end.

(** A mapping whose title, stripped and lowered, is the word album. *)
Definition is_album_entry (md : pyval) : bool :=
  match md with
  | PDict d =>
      match dict_get d (u "title") with
      | Some (PStr s) => bool_decide (py_lower (strip s) = u "album")
      | _ => false
      end
  | _ => false
  end.

Definition entry_text (md : pyval) : pyval :=
  match md with
  | PDict d => match dict_get d (u "text") with Some x => x | None => PNone end
  | _ => PNone
  end.

(** As the specification words it: in each section the text of the first
    album entry; the last section that has one wins. *)
Definition claimed_section_album (sec : pyval) : option pyval :=
  option_map entry_text (List.find is_album_entry (section_metadata sec)).

Definition claimed_album (secs : list pyval) : option pyval :=
  last (omap claimed_section_album secs).

(** As the loops compute it: the non-empty texts of all album entries, in
    scan order; the last one wins. *)
Definition album_texts (mds : list pyval) : list pyval :=
  List.filter truthy (List.map entry_text (List.filter is_album_entry mds)).

Definition scanned_album (secs : list pyval) : option pyval :=
  last (album_texts (flat_map section_metadata secs)).

(** ** Cover fetch, stated on the collaborators *)

(** The fetch of lines 102-104 raises: the URL is not a string, the
    request times out or fails in transport, or the final status is a
    client or server error. *)
Definition fetch_fails (env : Env) (url : pyval) : Prop :=
  match url with
  | PStr s =>
      match http_get env s with
      | HttpResponse status _ => (400 <= status < 600)%Z
      | HttpTimeout => True
      | HttpTransportError _ => True
      end
  | _ => True
  end.

(** The final status is outside 200-299. *)
Definition non_2xx (env : Env) (url : pystr) : Prop :=
  match http_get env url with
  | HttpResponse status _ => ~ (200 <= status < 300)%Z
  | _ => False
  end.

Definition without_cover (track : TrackInfo) : TrackInfo :=
  mkTrackInfo (artist track) (title track) (album track) PNone.

(** ** Results, stated on the summary *)

(** The result of a file that is not identified. *)
Definition skipped_result (p : Path) : FileResult :=
  mkFileResult (name p) (name p) false false false false true None.

(** The result of an identified file in preview mode. *)
Definition preview_result (p : Path) (ti : TrackInfo) : FileResult :=
  mkFileResult (name p) (name p) true false true (truthy (cover_url ti)) false None.

(** How many of the three terminal classifications hold. *)
Definition classes_held (r : FileResult) : nat :=
  (Nat.b2n (skipped r)
   + Nat.b2n (match error r with Some _ => true | None => false end)
   + Nat.b2n (identified r && tags_ok r))%nat.

(** The rename that a run outside preview mode would attempt. *)
Definition would_rename (env : Env) (p : Path) : bool :=
  match shazam_identify_file env p with
  | Some ti =>
      negb (bool_decide
              (make_target_filename (artist ti) (title ti) (album ti) = name p))
  | None => false
  end.

Definition has_error (r : FileResult) : bool :=
  match error r with Some _ => true | None => false end.

Definition fully_tagged (r : FileResult) : bool := identified r && tags_ok r.

Definition count_if (f : FileResult -> bool) (rs : list FileResult) : nat :=
  length (List.filter f rs).

(** The result of a file in preview mode. *)
Definition expected_preview (env : Env) (p : Path) : FileResult :=
  match shazam_identify_file env p with
  | None => skipped_result p
  | Some ti => preview_result p ti
  end.

(** What every result satisfies. *)
Definition file_ok (env : Env) (args : Args) (p : Path) (r : FileResult) : Prop :=
  src_name r = name p /\
  classes_held r = 1%nat /\
  (identified r = true -> tags_ok r = false -> exists msg, error r = Some msg) /\
  (dry_run args = true -> r = expected_preview env p).

(** ** Example inputs *)

Definition dict (items : list (string * pyval)) : pyval :=
  PDict (List.map (fun kv => (u (fst kv), snd kv)) items).

Definition str (s : string) : pyval := PStr (u s).

(** One section with two album entries. *)
Definition two_albums : pyval :=
  dict [("track", dict [
    ("title", str "T"); ("subtitle", str "A");
    ("sections", PList [dict [("metadata", PList [
       dict [("title", str "Album"); ("text", str "X")];
       dict [("title", str "album"); ("text", str "Y")]])]])])]%string.

(** A title made of one space. *)
Definition blank_title : pyval :=
  dict [("track", dict [("title", str " "); ("subtitle", str "Queen")])]%string.

(** A section that is a number, and no images object. *)
Definition odd_sections : pyval :=
  dict [("track", dict [
    ("title", str "T"); ("subtitle", str "A");
    ("sections", PList [PInt 5])])]%string.

(** The example of the specification. *)
Definition queen : pyval :=
  dict [("track", dict [
    ("title", str "Bohemian Rhapsody"); ("subtitle", str "Queen");
    ("sections", PList [dict [("metadata", PList [
       dict [("title", str "Album"); ("text", str "A Night at the Opera")]])]]);
    ("images", dict [("coverarthq", str "http://x/cover.jpg")])])]%string.

(** Collaborators that never fail and recognize nothing. *)
Definition quiet_env : Env :=
  mkEnv (fun _ => RecTimeout) (fun _ => HttpTimeout)
        (fun _ _ => None) (fun _ => None) (fun _ => None)
        (fun _ old _ => old).

Definition music (n : string) : Path := mkPath (u "/music") (u n).

(** A directory with [A.mp3], [A (1).mp3] and one other file. *)
Definition crowded : World :=
  <[music "A.mp3" := None]>
    (<[music "A (1).mp3" := None]>
       (<[music "other.mp3" := Some [TIT2 (u "x")]]> ∅)).

(** A server that answers every request with status 304 and no body. *)
Definition not_modified_env : Env :=
  mkEnv (fun _ => RecTimeout) (fun _ => HttpResponse 304 [])
        (fun _ _ => None) (fun _ => None) (fun _ => None)
        (fun _ old _ => old).

(** A server that answers every request with status 404. *)
Definition not_found_env : Env :=
  mkEnv (fun _ => RecTimeout) (fun _ => HttpResponse 404 [])
        (fun _ _ => None) (fun _ => None) (fun _ => None)
        (fun _ old _ => old).

Definition covered_track : TrackInfo :=
  mkTrackInfo (u "A") (u "T") None (str "http://x/c.jpg").

(** A service that recognizes [x.mp3] only, and a disk that is full. *)
Definition recognize_x (p : Path) : Recognition :=
  if bool_decide (name p = u "x.mp3") then RecPayload queen else RecTimeout.

Definition preview_env : Env :=
  mkEnv recognize_x (fun _ => HttpTimeout)
        (fun _ _ => None) (fun _ => None) (fun _ => None)
        (fun _ old _ => old).

Definition disk_full_env : Env :=
  mkEnv recognize_x (fun _ => HttpTimeout)
        (fun _ _ => None) (fun _ => None)
        (fun _ => Some (Exn OSError (u "No space left on device")))
        (fun _ old _ => old).

Definition library : World :=
  <[music "x.mp3" := None]> (<[music "y.mp3" := None]> ∅).

(** ** Further functions of [music.py] *)

Definition ellipsis : char := 8230.

(** [s[:k]]: a negative [k] counts from the end. *)
Definition py_slice_to (s : pystr) (k : Z) : pystr :=
  if (0 <=? k)%Z then take (Z.to_nat k) s
  else take (Z.to_nat (Z.of_nat (length s) + k)) s.

(** [trunc], lines 189-190. *)
Definition trunc (s : pystr) (maxlen : Z) : pystr :=
  if (Z.of_nat (length s) <=? maxlen)%Z then s
  else py_slice_to s (maxlen - 1) ++ [ellipsis].

(** The status flags of a result, without their colours. *)
Inductive Tag : Type := SKIP | REN | TAG | ART | ERR.

(** [if r.error]: a message that is not empty. *)
Definition error_truthy (r : FileResult) : bool :=
  match error r with Some (_ :: _) => true | _ => false end.

Definition flag (b : bool) (t : Tag) : list Tag := if b then [t] else [].

(** [bits] of [print_summary], lines 328-333. *)
Definition summary_bits (r : FileResult) : list Tag :=
  flag (skipped r) SKIP ++ flag (renamed r) REN ++ flag (tags_ok r) TAG
  ++ flag (art_ok r) ART ++ flag (error_truthy r) ERR.

(** [flags] of the verbose log, lines 291-296. *)
Definition verbose_flags (r : FileResult) : list Tag :=
  flag (renamed r) REN ++ flag (tags_ok r) TAG ++ flag (art_ok r) ART
  ++ flag (skipped r) SKIP ++ flag (error_truthy r) ERR.

(** ** Values read by the extractor, continued *)

(** [track.get(images, {}) or {}], [PNone] when the call raises. *)
Definition images_of (payload : pyval) : pyval :=
  match py_get_default (track_of payload) (u "images") (PDict []) with
  | Ok i => py_or i (PDict [])
  | Raise _ => PNone
  end.

(** [images.get(k)], [PNone] when the call raises. *)
Definition image_field (payload : pyval) (k : pystr) : pyval :=
  match py_get (images_of payload) k with
  | Ok v => v
  | Raise _ => PNone
  end.

(** ** Tags, continued *)

(** The frames that [update_tags] deletes and writes. *)
Definition managed (f : Frame) : bool :=
  bool_decide (frame_id f = u "TIT2") || bool_decide (frame_id f = u "TPE1")
  || bool_decide (frame_id f = u "TALB") || bool_decide (frame_id f = u "APIC").

(** The frames written for a track and a fetched cover. *)
Definition written_frames (track : TrackInfo) (cover : option (list N))
  : list Frame :=
  [TIT2 (title track); TPE1 (artist track)]
  ++ match album track with Some ((_ :: _) as a) => [TALB a] | _ => [] end
  ++ match cover with
     | Some data => [APIC (sniff_image_mime data) data]
     | None => []
     end.

(** The cover that is embedded: the bytes fetched, when there is a URL
    and the fetch does not raise. *)
Definition fetched_cover (env : Env) (track : TrackInfo) : option (list N) :=
  if truthy (cover_url track) then
    match fetch_cover env (cover_url track) with
    | Ok data => Some data
    | Raise _ => None
    end
  else None.

(** ** One file, as a step on the disk

    [file_step env args p w r w']: processing [p] on the disk [w] gives
    the result [r] and the disk [w'].  One rule for each way through
    lines 227-289. *)
Inductive file_step (env : Env) (args : Args) (p : Path) (w : World)
  : FileResult -> World -> Prop :=
| step_skipped :
    shazam_identify_file env p = None ->
    file_step env args p w (skipped_result p) w
| step_preview ti :
    shazam_identify_file env p = Some ti ->
    dry_run args = true ->
    file_step env args p w (preview_result p ti) w
| step_tagged ti art w1 :
    shazam_identify_file env p = Some ti ->
    dry_run args = false ->
    make_target_filename (artist ti) (title ti) (album ti) = name p ->
    update_tags env p ti w = (Normal (true, art), w1) ->
    file_step env args p w
      (mkFileResult (name p) (name p) true false true art false None) w1
| step_tag_failed ti e w1 :
    shazam_identify_file env p = Some ti ->
    dry_run args = false ->
    make_target_filename (artist ti) (title ti) (album ti) = name p ->
    update_tags env p ti w = (Raised e, w1) ->
    file_step env args p w
      (mkFileResult (name p) (name p) true false false false false
                    (Some (py_str_exn e))) w1
| step_rename_failed ti e w1 :
    shazam_identify_file env p = Some ti ->
    dry_run args = false ->
    make_target_filename (artist ti) (title ti) (album ti) <> name p ->
    safe_rename env p (make_target_filename (artist ti) (title ti) (album ti)) w
      = (Raised e, w1) ->
    file_step env args p w
      (mkFileResult (name p) (name p) true false false false false
                    (Some (py_str_exn e))) w1
| step_renamed_tagged ti path art w1 w2 :
    shazam_identify_file env p = Some ti ->
    dry_run args = false ->
    make_target_filename (artist ti) (title ti) (album ti) <> name p ->
    safe_rename env p (make_target_filename (artist ti) (title ti) (album ti)) w
      = (Normal path, w1) ->
    update_tags env path ti w1 = (Normal (true, art), w2) ->
    file_step env args p w
      (mkFileResult (name p) (name path) true true true art false None) w2
| step_renamed_tag_failed ti path e w1 w2 :
    shazam_identify_file env p = Some ti ->
    dry_run args = false ->
    make_target_filename (artist ti) (title ti) (album ti) <> name p ->
    safe_rename env p (make_target_filename (artist ti) (title ti) (album ti)) w
      = (Normal path, w1) ->
    update_tags env path ti w1 = (Raised e, w2) ->
    file_step env args p w
      (mkFileResult (name p) (name path) true true false false false
                    (Some (py_str_exn e))) w2.

(** The files of a list, in order. *)
Inductive batch_steps (env : Env) (args : Args)
  : list Path -> World -> list FileResult -> World -> Prop :=
| batch_nil w : batch_steps env args [] w [] w
| batch_cons p files w r w1 rs w2 :
    file_step env args p w r w1 ->
    batch_steps env args files w1 rs w2 ->
    batch_steps env args (p :: files) w (r :: rs) w2.

(** What holds of the flags of a result.  A destination name that
    differs from the source name comes from a rename; the converse is
    left out, for it depends on what the platform takes for equal paths. *)
Definition flags_consistent (r : FileResult) : Prop :=
  (skipped r = true ->
   identified r = false /\ renamed r = false /\ tags_ok r = false /\
   art_ok r = false /\ error r = None) /\
  (dest_name r <> src_name r -> renamed r = true) /\
  (renamed r = true -> identified r = true) /\
  (art_ok r = true -> tags_ok r = true) /\
  (tags_ok r = true -> identified r = true /\ error r = None).

(** ** Further example inputs *)

(** An operating system that refuses every rename. *)
Definition read_only_env : Env :=
  mkEnv recognize_x (fun _ => HttpTimeout)
        (fun _ _ => Some (Exn OSError (u "Permission denied")))
        (fun _ => None) (fun _ => None) (fun _ old _ => old).

(** A disk that fills up during the save: the file is left without
    its tag. *)
Definition torn_save_env : Env :=
  mkEnv recognize_x (fun _ => HttpTimeout)
        (fun _ _ => None) (fun _ => None)
        (fun _ => Some (Exn OSError (u "No space left on device")))
        (fun _ _ _ => None).

(** A service that recognizes [x.mp3], and a server that delivers a PNG
    header as cover. *)
Definition cover_env : Env :=
  mkEnv recognize_x (fun _ => HttpResponse 200 [137; 80; 78; 71; 13; 10])
        (fun _ _ => None) (fun _ => None) (fun _ => None)
        (fun _ old _ => old).

(** * Proofs *)

Arguments is_space : simpl never.
Arguments is_invalid : simpl never.
Arguments is_space_or_dot : simpl never.

(** ** Substitution *)

Section ReSub.
Variable m : pystr -> option pystr.
Variable repl : pystr.
Hypothesis m_suffix :
  forall s rest, m s = Some rest -> exists pre, pre <> [] /\ s = pre ++ rest.

Lemma m_shorter s rest : m s = Some rest -> (length rest < length s)%nat.
Proof.
  intros H. destruct (m_suffix _ _ H) as (pre & Hne & ->).
  rewrite length_app. destruct pre; [congruence | simpl; lia].
Qed.

Lemma re_sub_fuel n : forall k s,
  (length s <= n)%nat -> (length s <= k)%nat ->
  re_sub m repl n s = re_sub m repl k s.
Proof.
  induction n as [|n IH]; intros k s Hn Hk.
  - destruct s; [|simpl in Hn; lia]. destruct k; reflexivity.
  - destruct k as [|k].
    + destruct s; [reflexivity | simpl in Hk; lia].
    + destruct s as [|c r]; [reflexivity|]. simpl in Hn, Hk.
      cbn [re_sub]. destruct (m (c :: r)) as [rest|] eqn:E.
      * apply m_shorter in E. simpl in E. f_equal. apply IH; lia.
      * f_equal. apply IH; lia.
Qed.

Lemma re_sub_cons c r :
  re_sub m repl (length (c :: r)) (c :: r) =
  match m (c :: r) with
  | Some rest => repl ++ re_sub m repl (length rest) rest
  | None => c :: re_sub m repl (length r) r
  end.
Proof.
  cbn [length re_sub]. destruct (m (c :: r)) as [rest|] eqn:E; [|reflexivity].
  apply m_shorter in E. simpl in E. f_equal. apply re_sub_fuel; lia.
Qed.

Lemma re_sub_Forall (P : char -> Prop) : Forall P repl ->
  forall n s, Forall P s -> Forall P (re_sub m repl n s).
Proof.
  intros Hrepl. induction n as [|n IH]; intros s Hs; [exact Hs|].
  destruct s as [|c r]; [constructor|]. cbn [re_sub].
  destruct (m (c :: r)) as [rest|] eqn:E.
  - apply Forall_app. split; [exact Hrepl|]. apply IH.
    destruct (m_suffix _ _ E) as (pre & _ & Heq). rewrite Heq in Hs.
    apply Forall_app in Hs. tauto.
  - inversion Hs; subst. constructor; auto.
Qed.
End ReSub.

Lemma lstrip_suffix p s : exists pre, s = pre ++ lstrip p s.
Proof.
  induction s as [|c r [pre IH]]; [exists []; reflexivity|]. simpl.
  destruct (p c).
  - exists (c :: pre). simpl. congruence.
  - exists []. reflexivity.
Qed.

Lemma match_invalid_suffix s rest :
  match_invalid s = Some rest -> exists pre, pre <> [] /\ s = pre ++ rest.
Proof.
  destruct s as [|c r]; [discriminate|]. simpl.
  destruct (is_invalid c); [|discriminate]. intros [= <-].
  exists [c]. split; [discriminate | reflexivity].
Qed.

Lemma match_multispace_suffix s rest :
  match_multispace s = Some rest -> exists pre, pre <> [] /\ s = pre ++ rest.
Proof.
  destruct s as [|c r]; [discriminate|]. simpl.
  destruct (is_space c); [|discriminate]. intros [= <-].
  destruct (lstrip_suffix is_space r) as [pre Hpre].
  exists (c :: pre). split; [discriminate|]. simpl. congruence.
Qed.

Lemma match_hyphen_suffix s rest :
  match_hyphen s = Some rest -> exists pre, pre <> [] /\ s = pre ++ rest.
Proof.
  unfold match_hyphen. intros H.
  destruct (lstrip_suffix is_space s) as [pre Hpre].
  destruct (lstrip is_space s) as [|c r]; [discriminate|].
  destruct (c =? hy); [|discriminate]. injection H as <-.
  destruct (lstrip_suffix is_space r) as [pre' Hpre'].
  exists (pre ++ c :: pre'). split; [destruct pre; discriminate|].
  rewrite Hpre at 1. rewrite Hpre' at 1. rewrite <- app_assoc. reflexivity.
Qed.

Lemma sub_invalid_cons c r :
  sub_invalid (c :: r) = (if is_invalid c then sp else c) :: sub_invalid r.
Proof.
  unfold sub_invalid. rewrite (re_sub_cons _ _ match_invalid_suffix).
  simpl. destruct (is_invalid c); reflexivity.
Qed.

Lemma sub_multispace_cons c r :
  sub_multispace (c :: r) =
  if is_space c then sp :: sub_multispace (lstrip is_space r)
  else c :: sub_multispace r.
Proof.
  unfold sub_multispace. rewrite (re_sub_cons _ _ match_multispace_suffix).
  simpl. destruct (is_space c); reflexivity.
Qed.

Lemma sub_hyphen_cons c r :
  sub_hyphen (c :: r) =
  match match_hyphen (c :: r) with
  | Some rest => sp :: hy :: sp :: sub_hyphen rest
  | None => c :: sub_hyphen r
  end.
Proof.
  unfold sub_hyphen. rewrite (re_sub_cons _ _ match_hyphen_suffix).
  destruct (match_hyphen (c :: r)); reflexivity.
Qed.

(** Induction on the length of a string, for functions that skip ahead. *)
Lemma pystr_length_ind (P : pystr -> Prop) :
  (forall s, (forall s', (length s' < length s)%nat -> P s') -> P s) ->
  forall s, P s.
Proof.
  intros H s. remember (length s) as n eqn:Hn. revert s Hn.
  induction n as [n IH] using lt_wf_ind. intros s ->.
  apply H. intros s' Hlt. exact (IH _ Hlt _ eq_refl).
Qed.

Lemma lstrip_length p s : (length (lstrip p s) <= length s)%nat.
Proof.
  destruct (lstrip_suffix p s) as [pre H]. rewrite H at 2.
  rewrite length_app. lia.
Qed.

(** ** Stripping *)

Lemma lstrip_head p s :
  match lstrip p s with [] => True | c :: _ => p c = false end.
Proof.
  induction s as [|c r IH]; simpl; [exact I|].
  destruct (p c) eqn:E; [exact IH | exact E].
Qed.

Lemma rstrip_app p a b :
  rstrip p (a ++ b) =
  match rstrip p b with [] => rstrip p a | b' => a ++ b' end.
Proof.
  induction a as [|c a IH]; simpl.
  - destruct (rstrip p b); reflexivity.
  - rewrite IH. destruct (rstrip p b) as [|x b']; [reflexivity|].
    destruct (a ++ x :: b') eqn:E; [destruct a; discriminate | reflexivity].
Qed.

Lemma rstrip_idem p s : rstrip p (rstrip p s) = rstrip p s.
Proof.
  induction s as [|c r IH]; simpl; [reflexivity|].
  destruct (rstrip p r) as [|x r'] eqn:E.
  - destruct (p c) eqn:Ec; simpl; [reflexivity | rewrite Ec; reflexivity].
  - change (rstrip p ([c] ++ x :: r') = c :: x :: r').
    rewrite rstrip_app, IH. reflexivity.
Qed.

Lemma rstrip_Forall (P : char -> Prop) p s :
  Forall P s -> Forall P (rstrip p s).
Proof.
  induction 1 as [|c r Hc Hr IH]; simpl; [constructor|].
  destruct (rstrip p r); [destruct (p c); auto | auto].
Qed.

Lemma lstrip_Forall (P : char -> Prop) p s :
  Forall P s -> Forall P (lstrip p s).
Proof.
  induction 1 as [|c r Hc Hr IH]; simpl; [constructor|].
  destruct (p c); auto.
Qed.

Lemma rstrip_all_false p s :
  Forall (fun c => p c = false) s -> rstrip p s = s.
Proof.
  induction 1 as [|c r Hc Hr IH]; simpl; [reflexivity|].
  rewrite IH, Hc. destruct r; reflexivity.
Qed.

(** ** Tokens *)

Lemma is_space_sp : is_space sp = true.
Proof. reflexivity. Qed.

Lemma is_space_hy : is_space hy = false.
Proof. reflexivity. Qed.

Lemma toks_space h cur c r :
  is_space c = true -> toks h cur (c :: r) = flush cur ++ toks h [] r.
Proof. intros H. simpl. rewrite H. reflexivity. Qed.

Lemma toks_hy cur r :
  toks true cur (hy :: r) = flush cur ++ [hy] :: toks true [] r.
Proof. reflexivity. Qed.

Lemma toks_plain h cur c r :
  plain h c -> toks h cur (c :: r) = toks h (cur ++ [c]) r.
Proof.
  intros [Hs Hh]. simpl. rewrite Hs.
  destruct h; [|reflexivity]. simpl.
  destruct (N.eqb_spec c hy) as [E|_]; [exfalso; exact (Hh eq_refl E) | reflexivity].
Qed.

Lemma toks_lstrip h s : toks h [] (lstrip is_space s) = toks h [] s.
Proof.
  induction s as [|c r IH]; [reflexivity|]. simpl lstrip.
  destruct (is_space c) eqn:E; [|reflexivity].
  rewrite IH, toks_space by exact E. reflexivity.
Qed.

Lemma toks_plain_app h t : forall cur s,
  Forall (plain h) t -> toks h cur (t ++ s) = toks h (cur ++ t) s.
Proof.
  induction t as [|c t IH]; intros cur s Ht.
  - rewrite app_nil_r. reflexivity.
  - inversion Ht; subst. simpl app. rewrite toks_plain by assumption.
    rewrite IH by assumption. rewrite <- app_assoc. reflexivity.
Qed.

Lemma flush_nonempty t : t <> [] -> flush t = [t].
Proof. destruct t; [congruence | reflexivity]. Qed.

Lemma unwords_cons t ts :
  ts <> [] -> unwords (t :: ts) = t ++ sp :: unwords ts.
Proof. destruct ts; [congruence | reflexivity]. Qed.

(** A token followed by the end of the string or by whitespace is read
    back as itself. *)
Lemma toks_good h t s :
  good h t ->
  match s with [] => True | c :: _ => is_space c = true end ->
  toks h [] (t ++ s) = t :: toks h [] s.
Proof.
  intros [Hne [[-> ->] | Hp]] Hs.
  - simpl app. rewrite toks_hy. reflexivity.
  - rewrite toks_plain_app by assumption. simpl app.
    destruct s as [|c r]; simpl.
    + rewrite flush_nonempty by assumption. reflexivity.
    + rewrite Hs. rewrite flush_nonempty by assumption. reflexivity.
Qed.

(** [unwords] followed by tokenizing is the identity on well-formed
    tokens. *)
Lemma toks_unwords h ts : Forall (good h) ts -> toks h [] (unwords ts) = ts.
Proof.
  induction 1 as [|t ts Ht Hts IH]; [reflexivity|].
  destruct ts as [|t' ts'].
  - simpl. rewrite <- (app_nil_r t) at 1. rewrite toks_good; auto.
  - rewrite unwords_cons by discriminate.
    rewrite toks_good; [|assumption|exact is_space_sp].
    rewrite toks_space by exact is_space_sp. rewrite IH. reflexivity.
Qed.

Lemma good_weaken t : good true t -> good false t.
Proof.
  intros [Hne [[_ ->] | Hp]]; split; auto; right.
  - repeat constructor. discriminate.
  - eapply Forall_impl; [exact Hp|]. intros c [Hs _]. split; [exact Hs | discriminate].
Qed.

Lemma toks_all_good h : forall s cur,
  Forall (plain h) cur -> Forall (good h) (toks h cur s).
Proof.
  assert (Hflush : forall cur, Forall (plain h) cur -> Forall (good h) (flush cur)).
  { intros [|c t] Hc; simpl; constructor; [|constructor].
    split; [discriminate | right; exact Hc]. }
  induction s as [|c r IH]; intros cur Hcur; simpl; [auto|].
  destruct (is_space c) eqn:Es.
  - apply Forall_app. split; [auto | apply IH; constructor].
  - destruct (h && (c =? hy)) eqn:Eh.
    + apply andb_prop in Eh as [-> Ec]. apply N.eqb_eq in Ec as ->.
      apply Forall_app. split; [auto|]. constructor; [|apply IH; constructor].
      split; [discriminate | left; auto].
    + apply IH. apply Forall_app. split; [exact Hcur|]. constructor; [|constructor].
      split; [exact Es|]. intros ->. simpl in Eh.
      intros ->. rewrite N.eqb_refl in Eh. discriminate.
Qed.

(** ** Collapsing whitespace yields the words joined by single spaces *)

Lemma rstrip_head_nonspace c s : is_space c = false ->
  exists r, rstrip is_space (c :: s) = c :: r.
Proof.
  intros H. simpl. destruct (rstrip is_space s) as [|x r'].
  - rewrite H. eauto.
  - eauto.
Qed.

Lemma sub_multispace_nil : sub_multispace [] = [].
Proof. reflexivity. Qed.

Lemma rstrip_sub_multispace : forall s cur,
  Forall (fun c => is_space c = false) cur ->
  cur <> [] \/ starts_nonspace s ->
  rstrip is_space (cur ++ sub_multispace s) = unwords (toks false cur s).
Proof.
  induction s as [s IH] using pystr_length_ind. intros cur Hcur Hstart.
  destruct s as [|c r].
  - destruct Hstart as [Hne | []].
    rewrite sub_multispace_nil, app_nil_r, rstrip_all_false by assumption.
    simpl. rewrite flush_nonempty by assumption. reflexivity.
  - rewrite sub_multispace_cons. destruct (is_space c) eqn:Ec.
    + destruct Hstart as [Hne | Hs]; [|simpl in Hs; congruence].
      rewrite toks_space, flush_nonempty by assumption.
      rewrite <- toks_lstrip. simpl app.
      pose proof (lstrip_length is_space r) as Hlen.
      pose proof (lstrip_head is_space r) as Hhd.
      destruct (lstrip is_space r) as [|c' r'] eqn:Er.
      * rewrite sub_multispace_nil. rewrite rstrip_app. simpl.
        rewrite ?is_space_sp. rewrite rstrip_all_false by assumption. reflexivity.
      * assert (Hrec : rstrip is_space (sub_multispace (c' :: r')) =
                       unwords (toks false [] (c' :: r'))).
        { apply (IH (c' :: r')) with (cur := []).
          - simpl in *. lia.
          - constructor.
          - right. exact Hhd. }
        assert (Hne' : exists x, rstrip is_space (sub_multispace (c' :: r')) = c' :: x).
        { rewrite sub_multispace_cons, Hhd. apply rstrip_head_nonspace, Hhd. }
        destruct Hne' as [x Hx].
        rewrite rstrip_app.
        change (rstrip is_space (sp :: sub_multispace (c' :: r')))
          with (match rstrip is_space (sub_multispace (c' :: r')) with
                | [] => if is_space sp then [] else [sp]
                | r0 => sp :: r0 end).
        rewrite Hx. rewrite Hx in Hrec.
        rewrite unwords_cons.
        -- rewrite <- Hrec. reflexivity.
        -- intros E. rewrite E in Hrec. discriminate.
    + rewrite toks_plain by (split; [exact Ec | discriminate]).
      change (cur ++ c :: sub_multispace r) with (cur ++ [c] ++ sub_multispace r).
      rewrite app_assoc. apply IH.
      * simpl. lia.
      * apply Forall_app. split; [exact Hcur | repeat constructor; exact Ec].
      * left. destruct cur; discriminate.
Qed.

Theorem strip_sub_multispace s :
  strip (sub_multispace s) = unwords (toks false [] s).
Proof.
  induction s as [s IH] using pystr_length_ind.
  destruct s as [|c r]; [reflexivity|].
  destruct (is_space c) eqn:Ec.
  - rewrite sub_multispace_cons, Ec, toks_space by exact Ec. simpl app.
    rewrite <- toks_lstrip, <- IH
      by (pose proof (lstrip_length is_space r); simpl; lia).
    unfold strip. simpl.
    destruct (rstrip is_space (sub_multispace (lstrip is_space r))).
    + rewrite ?is_space_sp. reflexivity.
    + simpl. rewrite ?is_space_sp. reflexivity.
  - unfold strip.
    rewrite <- (rstrip_sub_multispace (c :: r) [] ltac:(constructor) (or_intror Ec)).
    simpl app. rewrite sub_multispace_cons, Ec.
    destruct (rstrip_head_nonspace c (sub_multispace r) Ec) as [x ->].
    simpl. rewrite Ec. reflexivity.
Qed.

(** ** Spacing hyphens makes every hyphen a word *)

Theorem toks_sub_hyphen : forall s cur,
  toks false cur (sub_hyphen s) = toks true cur s.
Proof.
  induction s as [s IH] using pystr_length_ind. intros cur.
  destruct s as [|c r]; [reflexivity|].
  rewrite sub_hyphen_cons. unfold match_hyphen. simpl lstrip.
  destruct (is_space c) eqn:Ec.
  - rewrite (toks_space true) by exact Ec.
    pose proof (lstrip_length is_space r) as Hlen.
    destruct (lstrip is_space r) as [|c' r'] eqn:Er.
    + rewrite toks_space by exact Ec. rewrite IH by (simpl; lia). reflexivity.
    + destruct (N.eqb_spec c' hy) as [->|Hne].
      * rewrite <- (toks_lstrip true r), Er, toks_hy.
        rewrite toks_space by exact is_space_sp.
        rewrite toks_plain by (split; [exact is_space_hy | discriminate]).
        rewrite toks_space by exact is_space_sp.
        rewrite IH by (pose proof (lstrip_length is_space r'); simpl in *; lia).
        rewrite toks_lstrip. reflexivity.
      * rewrite toks_space by exact Ec. rewrite IH by (simpl; lia). reflexivity.
  - destruct (N.eqb_spec c hy) as [->|Hne].
    + rewrite toks_hy.
      rewrite toks_space by exact is_space_sp.
      rewrite toks_plain by (split; [exact is_space_hy | discriminate]).
      rewrite toks_space by exact is_space_sp.
      rewrite IH by (pose proof (lstrip_length is_space r); simpl in *; lia).
      rewrite toks_lstrip. reflexivity.
    + rewrite toks_plain by (split; [exact Ec | discriminate]).
      rewrite (toks_plain true) by (split; [exact Ec | intros _; exact Hne]).
      apply IH. simpl. lia.
Qed.

(** ** Trailing spaces and periods *)

Lemma rstrip_good h t :
  good h t ->
  rstrip is_space_or_dot t = [] \/ good h (rstrip is_space_or_dot t).
Proof.
  intros [Hne [[-> ->] | Hp]].
  - right. split; [discriminate | left; auto].
  - destruct (rstrip is_space_or_dot t) eqn:E; [left; reflexivity|].
    right. split; [discriminate|]. right. rewrite <- E.
    apply rstrip_Forall, Hp.
Qed.

Lemma rstrip_unwords h ts :
  Forall (good h) ts ->
  exists ts', Forall (good h) ts' /\
    rstrip is_space_or_dot (unwords ts) = unwords ts'.
Proof.
  induction 1 as [|t ts Ht Hts (ts0 & Hts0 & IH)]; [exists []; split; [constructor | reflexivity]|].
  assert (Hone : exists ts', Forall (good h) ts' /\
            rstrip is_space_or_dot t = unwords ts').
  { destruct (rstrip_good h t Ht) as [E | Hg].
    - exists []. rewrite E. split; [constructor | reflexivity].
    - exists [rstrip is_space_or_dot t]. split; [constructor; [exact Hg | constructor] | reflexivity]. }
  destruct ts as [|t' ts1]; [exact Hone|].
  rewrite unwords_cons by discriminate. rewrite rstrip_app.
  change (rstrip is_space_or_dot (sp :: unwords (t' :: ts1)))
    with (match rstrip is_space_or_dot (unwords (t' :: ts1)) with
          | [] => if is_space_or_dot sp then [] else [sp]
          | r0 => sp :: r0 end).
  rewrite IH. destruct (unwords ts0) as [|x r0] eqn:E.
  - exact Hone.
  - exists (t :: ts0). split; [constructor; assumption|].
    rewrite unwords_cons by (intros ->; discriminate). rewrite E. reflexivity.
Qed.

(** ** Reserved characters *)

Lemma valid_sp : valid sp.
Proof. reflexivity. Qed.

Lemma valid_hy : valid hy.
Proof. reflexivity. Qed.

Lemma sub_invalid_valid s : Forall valid (sub_invalid s).
Proof.
  induction s as [|c r IH]; [constructor|]. rewrite sub_invalid_cons.
  constructor; [|exact IH]. destruct (is_invalid c) eqn:E; [exact valid_sp | exact E].
Qed.

Lemma sub_invalid_id s : Forall valid s -> sub_invalid s = s.
Proof.
  induction 1 as [|c r Hc Hr IH]; [reflexivity|].
  rewrite sub_invalid_cons, IH, Hc. reflexivity.
Qed.

Lemma tidy_valid s : Forall valid s -> Forall valid (tidy s).
Proof.
  intros H. unfold tidy, strip, sub_multispace.
  apply rstrip_Forall, lstrip_Forall, rstrip_Forall.
  apply (re_sub_Forall _ _ match_multispace_suffix); [|exact H].
  repeat constructor.
Qed.

Lemma sub_hyphen_valid s : Forall valid s -> Forall valid (sub_hyphen s).
Proof.
  intros H. unfold sub_hyphen.
  apply (re_sub_Forall _ _ match_hyphen_suffix); [|exact H].
  repeat constructor.
Qed.

Lemma sanitize_core_valid x : Forall valid (sanitize_core x).
Proof.
  unfold sanitize_core.
  apply tidy_valid, sub_hyphen_valid, tidy_valid, sub_invalid_valid.
Qed.

(** ** The result is a list of tokens joined by single spaces *)

Lemma tidy_toks s : tidy s = rstrip is_space_or_dot (unwords (toks false [] s)).
Proof. unfold tidy. rewrite strip_sub_multispace. reflexivity. Qed.

Lemma sanitize_core_tokens x :
  exists ts, Forall (good true) ts /\ sanitize_core x = unwords ts.
Proof.
  unfold sanitize_core. rewrite (tidy_toks (sub_hyphen _)), toks_sub_hyphen.
  apply rstrip_unwords, toks_all_good. constructor.
Qed.

Lemma sanitize_core_fixed ts :
  Forall (good true) ts ->
  Forall valid (unwords ts) ->
  rstrip is_space_or_dot (unwords ts) = unwords ts ->
  sanitize_core (unwords ts) = unwords ts.
Proof.
  intros Hg Hv Hr. unfold sanitize_core.
  rewrite sub_invalid_id by exact Hv.
  assert (Hg' : Forall (good false) ts).
  { eapply Forall_impl; [exact Hg|]. exact good_weaken. }
  rewrite (tidy_toks (unwords ts)), toks_unwords, Hr by exact Hg'.
  rewrite tidy_toks, toks_sub_hyphen, toks_unwords by exact Hg.
  exact Hr.
Qed.

Lemma sanitize_core_idem x : sanitize_core (sanitize_core x) = sanitize_core x.
Proof.
  destruct (sanitize_core_tokens x) as (ts & Hg & E).
  pose proof (sanitize_core_valid x) as Hv.
  assert (Hr : rstrip is_space_or_dot (sanitize_core x) = sanitize_core x).
  { unfold sanitize_core at 1 2. unfold tidy at 1 3. apply rstrip_idem. }
  rewrite E in *. apply sanitize_core_fixed; assumption.
Qed.

(** C7. Filename sanitization is idempotent: for every string [x],
    [sanitize_filename (sanitize_filename x) = sanitize_filename x]. *)
Theorem sanitize_filename_idempotent (x : pystr) :
  sanitize_filename (sanitize_filename x) = sanitize_filename x.
Proof.
  unfold sanitize_filename at 2 3.
  destruct (sanitize_core x) as [|c r] eqn:E.
  - vm_compute. reflexivity.
  - unfold sanitize_filename. rewrite <- E, sanitize_core_idem, E. reflexivity.
Qed.

(** ** Payload extractor *)

Arguments u : simpl never.

Lemma py_get_dict d k :
  py_get (PDict d) k = Ok (match dict_get d k with Some x => x | None => PNone end).
Proof. reflexivity. Qed.

Lemma py_get_ok v k x : py_get v k = Ok x -> exists d, v = PDict d.
Proof. destruct v; try discriminate. eauto. Qed.

Lemma py_get_default_ok v k dflt x :
  py_get_default v k dflt = Ok x -> exists d, v = PDict d.
Proof. destruct v; try discriminate. eauto. Qed.

Lemma py_normalize_ok v s : py_normalize v = Ok s -> exists r, v = PStr r /\ s = normalize r.
Proof. destruct v; try discriminate. intros [= <-]. eauto. Qed.

Lemma truthy_str s : truthy (PStr s) = true -> s <> [].
Proof. destruct s; [discriminate | discriminate]. Qed.

(** The test of line 131 on a mapping, when it does not raise. *)
Lemma album_test_ok d t' :
  (let? t := py_get (PDict d) (u "title") in
   py_strip_lower (py_or t (PStr []))) = Ok t' ->
  bool_decide (t' = u "album") = is_album_entry (PDict d).
Proof.
  rewrite py_get_dict. simpl res_bind. unfold is_album_entry, py_or.
  destruct (dict_get d (u "title")) as [v|]; [|intros [= <-]; reflexivity].
  destruct (truthy v) eqn:Ev.
  - destruct v; try discriminate. intros [= <-]. reflexivity.
  - destruct v; intros [= <-]; try reflexivity.
    destruct s; [reflexivity | discriminate].
Qed.

Lemma album_texts_app l1 l2 : album_texts (l1 ++ l2) = album_texts l1 ++ album_texts l2.
Proof.
  unfold album_texts. rewrite List.filter_app, List.map_app, List.filter_app.
  reflexivity.
Qed.

Lemma album_texts_cons md mds :
  album_texts (md :: mds) =
  (if is_album_entry md && truthy (entry_text md) then [entry_text md] else [])
  ++ album_texts mds.
Proof.
  unfold album_texts. simpl. destruct (is_album_entry md); [|reflexivity].
  simpl. destruct (truthy (entry_text md)); reflexivity.
Qed.

Lemma album_texts_truthy mds : Forall (fun v => truthy v = true) (album_texts mds).
Proof.
  unfold album_texts. apply List.Forall_forall. intros v Hv.
  apply List.filter_In in Hv. tauto.
Qed.

Lemma last_app_default (l1 l2 : list pyval) a0 :
  from_option id (from_option id a0 (last l1)) (last l2) =
  from_option id a0 (last (l1 ++ l2)).
Proof. rewrite last_app. destruct (last l2); reflexivity. Qed.

(** The inner loop keeps the last non-empty text of an album entry. *)
Lemma scan_metadata_last mds : forall a0 a,
  scan_metadata mds a0 = Ok a ->
  a = from_option id a0 (last (album_texts mds)).
Proof.
  induction mds as [|md mds IH]; intros a0 a H.
  - injection H as <-. reflexivity.
  - rewrite album_texts_cons, <- last_app_default.
    cbn [scan_metadata] in H. destruct (is_dict md) eqn:Ed.
    + destruct md; try discriminate. cbn [negb] in H.
      destruct (let? t := py_get (PDict d) (u "title") in
                py_strip_lower (py_or t (PStr []))) as [t'|e] eqn:Et.
      * pose proof (album_test_ok d t' Et) as Htest.
        rewrite py_get_dict in Et, H. simpl res_bind in Et, H. rewrite Et in H.
        simpl res_bind in H. rewrite Htest in H.
        destruct (is_album_entry (PDict d)).
        -- apply IH in H. subst a. unfold py_or. cbn [entry_text andb].
           destruct (truthy _); reflexivity.
        -- apply IH in H. exact H.
      * rewrite py_get_dict in Et, H. simpl res_bind in Et, H. rewrite Et in H.
        discriminate.
    + cbn [negb] in H. apply IH in H.
      destruct md; try discriminate; exact H.
Qed.

Lemma section_metadata_not_dict sec : is_dict sec = false -> section_metadata sec = [].
Proof. destruct sec; try reflexivity. discriminate. Qed.

(** The outer loop keeps the last non-empty text of an album entry of
    all sections. *)
Lemma scan_sections_last secs : forall a0 a,
  scan_sections secs a0 = Ok a ->
  a = from_option id a0 (last (album_texts (flat_map section_metadata secs))).
Proof.
  induction secs as [|sec secs IH]; intros a0 a H.
  - injection H as <-. reflexivity.
  - cbn [flat_map]. rewrite album_texts_app, <- last_app_default.
    cbn [scan_sections] in H. destruct (is_dict sec) eqn:Ed.
    + destruct sec; try discriminate. cbn [negb] in H.
      rewrite py_get_dict in H. simpl res_bind in H. cbn [section_metadata].
      destruct (dict_get d (u "metadata")) as [meta|].
      * destruct (truthy meta) eqn:Em; cbn [negb] in H.
        -- destruct (py_iter meta) as [mds|e]; [|discriminate].
           simpl res_bind in H.
           destruct (scan_metadata mds a0) as [a1|e] eqn:E1; [|discriminate].
           simpl res_bind in H. apply scan_metadata_last in E1. subst a1.
           apply IH in H. exact H.
        -- apply IH in H. exact H.
      * cbn [truthy negb] in H. apply IH in H. exact H.
    + cbn [negb] in H. rewrite section_metadata_not_dict by exact Ed.
      apply IH in H. exact H.
Qed.

Lemma pick_cover_ok images c :
  pick_cover images = Ok c -> c = PNone \/ truthy c = true.
Proof.
  unfold pick_cover. destruct images; try discriminate.
  rewrite !py_get_dict. simpl res_bind.
  destruct (truthy (match dict_get d (u "coverarthq") with Some x => x | None => PNone end)) eqn:E1.
  { intros [= <-]. right. exact E1. }
  destruct (truthy (match dict_get d (u "coverart") with Some x => x | None => PNone end)) eqn:E2.
  { intros [= <-]. right. exact E2. }
  unfold py_or.
  destruct (truthy (match dict_get d (u "background") with Some x => x | None => PNone end)) eqn:E3;
    intros [= <-]; [right; exact E3 | left; reflexivity].
Qed.

(** What a successful extraction says about the payload. *)
Lemma extract_some_inv payload ti :
  extract_trackinfo_from_shazam payload = Ok (Some ti) ->
  exists t a al,
    track_field payload (u "title") = PStr t /\ t <> [] /\
    track_field payload (u "subtitle") = PStr a /\ a <> [] /\
    title ti = normalize t /\ artist ti = normalize a /\
    scan_sections (sections_of payload) PNone = Ok al /\
    (truthy al = false /\ album ti = None \/
     truthy al = true /\ exists s, al = PStr s /\ album ti = Some (normalize s)) /\
    (cover_url ti = PNone \/ truthy (cover_url ti) = true).
Proof.
  unfold extract_trackinfo_from_shazam.
  destruct (extract_body payload) as [r|e] eqn:E; [|discriminate].
  intros [= ->]. unfold extract_body in E.
  unfold track_field, sections_of, track_of.
  destruct (py_get payload (u "track")) as [track0|]; [|discriminate].
  simpl res_bind in E.
  destruct (py_get (py_or track0 (PDict [])) (u "title")) as [t|]; [|discriminate].
  simpl res_bind in E.
  destruct (py_get (py_or track0 (PDict [])) (u "subtitle")) as [a|]; [|discriminate].
  simpl res_bind in E.
  destruct (truthy t) eqn:Et; [|discriminate].
  destruct (truthy a) eqn:Ea; [|discriminate].
  cbn [negb orb] in E.
  destruct (py_get_default (py_or track0 (PDict [])) (u "sections") (PList []))
    as [secs0|]; [|discriminate].
  simpl res_bind in E.
  destruct (py_iter (py_or secs0 (PList []))) as [secs|]; [|discriminate].
  simpl res_bind in E.
  destruct (scan_sections secs PNone) as [al|] eqn:Eal; [|discriminate].
  simpl res_bind in E.
  destruct (py_get_default (py_or track0 (PDict [])) (u "images") (PDict []))
    as [images0|]; [|discriminate].
  simpl res_bind in E.
  destruct (pick_cover (py_or images0 (PDict []))) as [cover|] eqn:Ec; [|discriminate].
  simpl res_bind in E.
  destruct (py_normalize a) as [a'|] eqn:Ena; [|discriminate].
  simpl res_bind in E.
  destruct (py_normalize t) as [t'|] eqn:Ent; [|discriminate].
  simpl res_bind in E.
  apply py_normalize_ok in Ena as (ra & -> & ->).
  apply py_normalize_ok in Ent as (rt & -> & ->).
  apply pick_cover_ok in Ec.
  exists rt, ra, al.
  destruct (truthy al) eqn:Etal.
  - destruct (py_normalize al) as [al'|] eqn:Enal; [|discriminate].
    apply py_normalize_ok in Enal as (rl & -> & ->).
    simpl in E. injection E as <-. cbn.
    repeat split; auto using truthy_str. right. eauto.
  - simpl in E. injection E as <-. cbn.
    repeat split; auto using truthy_str.
Qed.

Lemma last_truthy (l : list pyval) v :
  Forall (fun x => truthy x = true) l -> last l = Some v -> truthy v = true.
Proof.
  intros Hl Hv. apply last_Some in Hv as [l' ->].
  apply Forall_app in Hl as [_ Hl]. inversion Hl; subst. assumption.
Qed.

(** C3 (amended). Whenever [extract] succeeds, the album is the
    whitespace-normalized text of the LAST metadata entry, over all
    sections that are mappings taken in scan order and all their metadata
    entries, whose title (stripped, case-insensitively) equals album and
    whose text is non-empty: within one section the last such entry wins,
    and across sections the last section that has one decides.  With no
    such entry there is no album. *)
Theorem extract_album_last_match (payload : pyval) (ti : TrackInfo) :
  extract_trackinfo_from_shazam payload = Ok (Some ti) ->
  match scanned_album (sections_of payload) with
  | None => album ti = None
  | Some v => exists s, v = PStr s /\ album ti = Some (normalize s)
  end.
Proof.
  intros H.
  destruct (extract_some_inv _ _ H) as (t & a & al & _ & _ & _ & _ & _ & _ & Hscan & Hal & _).
  apply scan_sections_last in Hscan. unfold scanned_album.
  pose proof (album_texts_truthy (flat_map section_metadata (sections_of payload))) as Ht.
  destruct (last _) as [v|] eqn:El; simpl in Hscan; subst al.
  - apply (last_truthy _ _ Ht) in El.
    destruct Hal as [[Hf _] | [_ Hs]]; [congruence | exact Hs].
  - destruct Hal as [[_ Hn] | [Hf _]]; [exact Hn | discriminate].
Qed.

Lemma extract_album_last_match_witness :
  extract_trackinfo_from_shazam two_albums
    = Ok (Some (mkTrackInfo (u "A") (u "T") (Some (u "Y")) PNone)) /\
  exists s, scanned_album (sections_of two_albums) = Some (PStr s) /\
            Some (u "Y") = Some (normalize s).
Proof.
  assert (H : extract_trackinfo_from_shazam two_albums
              = Ok (Some (mkTrackInfo (u "A") (u "T") (Some (u "Y")) PNone)))
    by (vm_compute; reflexivity).
  split; [exact H|].
  pose proof (extract_album_last_match _ _ H) as Hm.
  destruct (scanned_album (sections_of two_albums)) as [v|]; [|discriminate].
  destruct Hm as (s & -> & Hs). exists s. split; [reflexivity | exact Hs].
Defined.

(** C3, as worded, fails: with two album entries in one section the
    first entry has text X, and the extracted album is Y. *)
Lemma album_first_entry_counterexample :
  claimed_album (sections_of two_albums) = Some (PStr (u "X")) /\
  extract_trackinfo_from_shazam two_albums
    = Ok (Some (mkTrackInfo (u "A") (u "T") (Some (u "Y")) PNone)).
Proof. split; vm_compute; reflexivity. Qed.

(** C4. A title of one space passes the emptiness test of line 118 and is
    normalized to the empty string: the extraction succeeds with an empty
    title. *)
Theorem extract_blank_title :
  extract_trackinfo_from_shazam blank_title
    = Ok (Some (mkTrackInfo (u "Queen") [] None PNone)).
Proof. vm_compute. reflexivity. Qed.

(** C5 (amended). [extract] never raises: whatever makes an operation of
    its body fail gives the unusable outcome.  It returns the unusable
    outcome whenever the payload or a non-empty track is not a mapping, or
    the title or the subtitle is missing, empty or not a string. *)
Theorem extract_total (payload : pyval) :
  (exists r, extract_trackinfo_from_shazam payload = Ok r) /\
  (forall e, extract_body payload = Raise e ->
   extract_trackinfo_from_shazam payload = Ok None) /\
  (is_dict payload = false \/ is_dict (track_of payload) = false ->
   extract_trackinfo_from_shazam payload = Ok None) /\
  (truthy (track_field payload (u "title")) = false \/
   truthy (track_field payload (u "subtitle")) = false ->
   extract_trackinfo_from_shazam payload = Ok None) /\
  ((forall s, track_field payload (u "title") <> PStr s) \/
   (forall s, track_field payload (u "subtitle") <> PStr s) ->
   extract_trackinfo_from_shazam payload = Ok None).
Proof.
  assert (Hnone : forall (P : Prop),
            (forall ti, extract_trackinfo_from_shazam payload = Ok (Some ti) -> ~ P) ->
            P -> extract_trackinfo_from_shazam payload = Ok None).
  { intros P HP Hp.
    destruct (extract_trackinfo_from_shazam payload) as [[ti|]|e] eqn:E.
    - exfalso. exact (HP ti eq_refl Hp).
    - reflexivity.
    - unfold extract_trackinfo_from_shazam in E.
      destruct (extract_body payload); discriminate. }
  split; [|split; [|split; [|split]]].
  - unfold extract_trackinfo_from_shazam. destruct (extract_body payload); eauto.
  - intros e He. unfold extract_trackinfo_from_shazam. rewrite He. reflexivity.
  - apply Hnone. intros ti H.
    destruct (extract_some_inv _ _ H) as (t & a & al & Ht & _).
    unfold track_field in Ht.
    destruct (py_get (track_of payload) (u "title")) as [x|] eqn:Ex; [|discriminate].
    apply py_get_ok in Ex as [d Ed]. intros [Hp | Hp].
    + unfold track_of in Ed. destruct payload; try discriminate.
    + rewrite Ed in Hp. discriminate.
  - apply Hnone. intros ti H.
    destruct (extract_some_inv _ _ H) as (t & a & al & Ht & Htne & Ha & Hane & _).
    rewrite Ht, Ha. destruct t, a; try congruence. intros [|]; discriminate.
  - apply Hnone. intros ti H.
    destruct (extract_some_inv _ _ H) as (t & a & al & Ht & _ & Ha & _).
    intros [Hp | Hp]; [exact (Hp _ Ht) | exact (Hp _ Ha)].
Qed.

Lemma extract_total_witness :
  truthy (track_field (dict []) (u "title")) = false /\
  extract_trackinfo_from_shazam (dict []) = Ok None.
Proof.
  split; [reflexivity|].
  apply (proj1 (proj2 (proj2 (proj2 (extract_total (dict [])))))).
  left. reflexivity.
Defined.

(** C5, as worded, fails: a section of the wrong type and a missing
    images object are passed over, and the payload is usable. *)
Lemma extract_tolerates_anomalies :
  sections_of odd_sections = [PInt 5] /\
  dict_get (match track_of odd_sections with PDict d => d | _ => [] end)
           (u "images") = None /\
  extract_trackinfo_from_shazam odd_sections
    = Ok (Some (mkTrackInfo (u "A") (u "T") None PNone)).
Proof. repeat split; vm_compute; reflexivity. Qed.

(** The extraction example of the specification. *)
Example extract_queen :
  extract_trackinfo_from_shazam queen
    = Ok (Some (mkTrackInfo (u "Queen") (u "Bohemian Rhapsody")
                  (Some (u "A Night at the Opera")) (str "http://x/cover.jpg"))).
Proof. vm_compute. reflexivity. Qed.

Example make_target_filename_queen :
  make_target_filename (u "Queen") (u "Bohemian Rhapsody")
                       (Some (u "A Night at the Opera"))
  = u "Queen - Bohemian Rhapsody - A Night at the Opera.mp3".
Proof. vm_compute. reflexivity. Qed.

(** ** Collision-safe renamer *)

Lemma u_inj s1 s2 : u s1 = u s2 -> s1 = s2.
Proof.
  unfold u. intros H.
  rewrite <- (string_of_list_ascii_of_string s1), <- (string_of_list_ascii_of_string s2).
  f_equal. revert H. generalize (list_ascii_of_string s2).
  induction (list_ascii_of_string s1) as [|a l IH]; intros [|b l'] H;
    try discriminate; [reflexivity|].
  simpl in H. injection H as Hab Hl. f_equal; [|auto].
  rewrite <- (ascii_N_embedding a), <- (ascii_N_embedding b), Hab. reflexivity.
Qed.

Lemma py_str_int_inj i j : py_str_int i = py_str_int j -> i = j.
Proof.
  unfold py_str_int. intros H. apply u_inj in H.
  assert (E : N.to_uint i = N.to_uint j).
  { pose proof (NilEmpty.usu (N.to_uint i)) as Hi.
    pose proof (NilEmpty.usu (N.to_uint j)) as Hj.
    rewrite H in Hi. congruence. }
  rewrite <- (DecimalN.Unsigned.of_to i), <- (DecimalN.Unsigned.of_to j), E.
  reflexivity.
Qed.

Lemma candidate_name_inj stem ext i j :
  candidate_name stem ext i = candidate_name stem ext j -> i = j.
Proof.
  unfold candidate_name. intros H.
  apply app_inv_head in H. apply app_inv_head in H.
  rewrite !app_assoc in H. apply app_inv_tail in H. apply app_inv_tail in H.
  apply py_str_int_inj, H.
Qed.

Lemma no_slash_app a b : no_slash (a ++ b) <-> no_slash a /\ no_slash b.
Proof. unfold no_slash. rewrite existsb_app, orb_false_iff. reflexivity. Qed.

Lemma u_String c s : u (String c s) = N_of_ascii c :: u s.
Proof. reflexivity. Qed.

Lemma no_slash_uint d : no_slash (u (NilEmpty.string_of_uint d)).
Proof.
  induction d; simpl NilEmpty.string_of_uint; [reflexivity|..];
    rewrite u_String; unfold no_slash in *; simpl; exact IHd.
Qed.

Lemma splitext_app p stem ext : splitext p = (stem, ext) -> stem ++ ext = p.
Proof.
  unfold splitext. destruct (rfind dot p) as [d|].
  - destruct (_ && _); intros [= <- <-]; [apply take_drop | apply app_nil_r].
  - intros [= <- <-]. apply app_nil_r.
Qed.

Lemma with_name_ok src n dest :
  with_name src n = Ok dest ->
  name src <> [] /\ n <> [] /\ no_slash n /\ n <> [dot] /\ dest = mkPath (parent src) n.
Proof.
  unfold with_name. case_bool_decide as Hs; [discriminate|].
  destruct (_ || _ || _) eqn:E; [discriminate|]. intros [= <-].
  apply orb_false_iff in E as [E E3]. apply orb_false_iff in E as [E1 E2].
  apply bool_decide_eq_false in E1, E3. auto.
Qed.

Lemma with_name_intro src n :
  name src <> [] -> n <> [] -> no_slash n -> n <> [dot] ->
  with_name src n = Ok (mkPath (parent src) n).
Proof.
  intros H1 H2 H3 H4. unfold with_name.
  rewrite bool_decide_eq_false_2 by exact H1.
  rewrite (bool_decide_eq_false_2 _ H2), H3, (bool_decide_eq_false_2 _ H4).
  reflexivity.
Qed.

(** Every candidate of a valid target name is a valid name. *)
Lemma with_name_candidate src target dest stem ext i :
  with_name src target = Ok dest ->
  splitext target = (stem, ext) ->
  with_name src (candidate_name stem ext i)
  = Ok (candidate src stem ext i).
Proof.
  intros Hw Hs. apply with_name_ok in Hw as (H1 & _ & H3 & _).
  apply splitext_app in Hs. subst target. apply no_slash_app in H3 as [Hst Hex].
  apply with_name_intro; [exact H1 | | |]; unfold candidate_name.
  - destruct stem; discriminate.
  - rewrite !no_slash_app. repeat split; auto. apply no_slash_uint.
  - destruct stem as [|c [|c' stem]]; discriminate.
Qed.

Section Probe.
Variables (w : World) (src : Path) (stem ext : pystr).

Local Abbreviation cand := (candidate src stem ext).

Hypothesis cand_valid :
  forall i, with_name src (candidate_name stem ext i) = Ok (cand i).

Lemma cand_inj i j : cand i = cand j -> i = j.
Proof. unfold candidate. intros [= H]. exact (candidate_name_inj _ _ _ _ H). Qed.

(** The loop stops at the first candidate that does not exist. *)
Lemma probe_first_free k : forall fuel i,
  i <= k -> (N.to_nat (k - i) < fuel)%nat ->
  (forall j, i <= j < k -> path_exists w (cand j) = true) ->
  path_exists w (cand k) = false ->
  probe w src stem ext fuel i = Some (Ok (cand k)).
Proof.
  induction fuel as [|fuel IH]; intros i Hik Hf Hex Hfree; [lia|].
  cbn [probe]. rewrite cand_valid.
  destruct (N.eq_dec i k) as [->|Hne].
  - rewrite Hfree. reflexivity.
  - rewrite Hex by lia. cbn [negb]. apply IH; try lia.
    + intros j Hj. apply Hex. lia.
    + exact Hfree.
Qed.


(** There are no more existing candidates than paths. *)
Lemma existing_candidates_bound n :
  (forall j, 1 <= j -> (N.to_nat (j - 1) < n)%nat -> path_exists w (cand j) = true) ->
  (n <= size w)%nat.
Proof.
  intros H.
  set (l := (fun m => cand (N.of_nat (S m))) <$> seq 0 n).
  assert (Hnd : NoDup l).
  { apply NoDup_fmap_2; [|apply NoDup_seq].
    intros a b Hab. apply cand_inj in Hab. lia. }
  assert (Hsub : (list_to_set l : gset Path) ⊆ dom w).
  { intros p Hp. apply elem_of_list_to_set in Hp.
    apply list_elem_of_fmap in Hp as (m & -> & Hm).
    apply elem_of_seq in Hm. apply elem_of_dom.
    specialize (H (N.of_nat (S m)) ltac:(lia) ltac:(lia)).
    unfold path_exists in H. destruct (w !! cand _); [eauto | discriminate]. }
  apply subseteq_size in Hsub.
  rewrite size_list_to_set, size_dom in Hsub by exact Hnd.
  unfold l in Hsub. rewrite length_fmap, length_seq in Hsub. exact Hsub.
Qed.

End Probe.

(** [safe_rename] takes the first free suffix, in increasing order. *)
Lemma safe_rename_first_free env (w : World) src target dest stem ext k f :
  with_name src target = Ok dest -> dest <> src ->
  path_exists w dest = true ->
  splitext target = (stem, ext) ->
  1 <= k ->
  (forall j, 1 <= j < k ->
     path_exists w (candidate src stem ext j) = true) ->
  path_exists w (candidate src stem ext k) = false ->
  rename_error env src (candidate src stem ext k) = None ->
  w !! src = Some f ->
  safe_rename env src target w
  = (Normal (candidate src stem ext k),
     <[candidate src stem ext k := f]> (delete src w)).
Proof.
  intros Hw Hne Hex Hs Hk Hall Hfree Hren Hsrc.
  pose proof (fun i => with_name_candidate src target dest stem ext i Hw Hs) as Hc.
  assert (Hfuel : (N.to_nat (k - 1) < S (size w))%nat).
  { apply Nat.lt_succ_r.
    apply (existing_candidates_bound w src stem ext).
    intros j Hj1 Hj2. apply Hall. lia. }
  pose proof (probe_first_free w src stem ext Hc k (S (size w)) 1 Hk Hfuel Hall Hfree) as Hp.
  unfold safe_rename, bind, lift_res, get, ret. rewrite Hw. unfold ret.
  rewrite bool_decide_eq_false_2 by exact Hne.
  rewrite Hex. cbn [negb]. rewrite Hs, Hp.
  unfold path_rename. rewrite Hren, Hsrc. reflexivity.
Qed.

(** C8. With [A.mp3] and [A (1).mp3] present next to it and [A (2).mp3]
    free, renaming another file to the target name [A.mp3] renames it to
    [A (2).mp3]: the suffixes are probed in increasing order before the
    extension and the first free one is taken
    ([safe_rename_first_free]). *)
Theorem safe_rename_collision env (w : World) (src : Path) f :
  name src <> [] -> name src <> u "A.mp3" ->
  w !! src = Some f ->
  path_exists w (mkPath (parent src) (u "A.mp3")) = true ->
  path_exists w (mkPath (parent src) (u "A (1).mp3")) = true ->
  path_exists w (mkPath (parent src) (u "A (2).mp3")) = false ->
  rename_error env src (mkPath (parent src) (u "A (2).mp3")) = None ->
  safe_rename env src (u "A.mp3") w
  = (Normal (mkPath (parent src) (u "A (2).mp3")),
     <[mkPath (parent src) (u "A (2).mp3") := f]> (delete src w)).
Proof.
  intros Hn Hne Hsrc H0 H1 H2 Hren.
  apply (safe_rename_first_free env w src (u "A.mp3")
           (mkPath (parent src) (u "A.mp3")) (u "A") (u ".mp3") 2 f); auto.
  - apply with_name_intro; [exact Hn | discriminate | reflexivity | discriminate].
  - intros E. apply Hne. rewrite <- E. reflexivity.
  - lia.
  - intros j Hj. assert (j = 1) as -> by lia. exact H1.
Qed.

Lemma safe_rename_collision_witness :
  path_exists crowded (music "A.mp3") = true /\
  path_exists crowded (music "A (1).mp3") = true /\
  safe_rename quiet_env (music "other.mp3") (u "A.mp3") crowded
  = (Normal (music "A (2).mp3"),
     <[music "A (2).mp3" := Some [TIT2 (u "x")]]>
       (delete (music "other.mp3") crowded)).
Proof.
  split; [vm_compute; reflexivity|]. split; [vm_compute; reflexivity|].
  apply (safe_rename_collision quiet_env crowded (music "other.mp3")).
  - vm_compute. discriminate.
  - vm_compute. discriminate.
  - vm_compute. reflexivity.
  - vm_compute. reflexivity.
  - vm_compute. reflexivity.
  - vm_compute. reflexivity.
  - reflexivity.
Defined.


(** ** Stateful code never leaves by [continue] unless it says so *)

Lemma nc_ret {S A} (a : A) : no_continue (ret a : M S A).
Proof. intros s. discriminate. Qed.

Lemma nc_raise {S A} e : no_continue (raise e : M S A).
Proof. intros s. discriminate. Qed.

Lemma nc_get {S} : no_continue (get : M S S).
Proof. intros s. discriminate. Qed.

Lemma nc_lift_res {S A} (r : res A) : no_continue (lift_res r : M S A).
Proof. destruct r; [apply nc_ret | apply nc_raise]. Qed.

Lemma nc_bind {S A B} (c : M S A) (k : A -> M S B) :
  no_continue c -> (forall a, no_continue (k a)) -> no_continue (bind c k).
Proof.
  intros Hc Hk s. unfold bind. specialize (Hc s).
  destruct (c s) as [[a|e|] s']; simpl in *; [apply Hk | discriminate | congruence].
Qed.

Lemma nc_path_rename env src dest : no_continue (path_rename env src dest).
Proof.
  intros w. unfold path_rename.
  destruct (rename_error env src dest); [discriminate|].
  destruct (w !! src); discriminate.
Qed.

Lemma nc_mp3_open env p : no_continue (mp3_open env p).
Proof.
  intros w. unfold mp3_open.
  destruct (open_error env p); [discriminate|]. destruct (w !! p); discriminate.
Qed.

Lemma nc_mp3_save env p tags : no_continue (mp3_save env p tags).
Proof.
  intros w. unfold mp3_save.
  destruct (save_error env p); [discriminate|]. destruct (w !! p); discriminate.
Qed.

Ltac nc_step :=
  first
    [ apply nc_ret | apply nc_raise | apply nc_get | apply nc_lift_res
    | apply nc_path_rename | apply nc_mp3_open | apply nc_mp3_save
    | apply nc_bind; [|intros ?]
    | match goal with
      | |- no_continue (if ?b then _ else _) => destruct b
      | |- no_continue (match ?x with _ => _ end) => destruct x
      end ].

Lemma nc_safe_rename env src target : no_continue (safe_rename env src target).
Proof. unfold safe_rename. repeat nc_step. Qed.

Lemma nc_update_tags env p track : no_continue (update_tags env p track).
Proof. unfold update_tags. repeat nc_step. Qed.

(** ** Tag writer *)

(** What [update_tags] does, by cases on the collaborators. *)
Lemma update_tags_unfold env p track (w : World) :
  update_tags env p track w =
  match open_error env p with
  | Some e => (Raised e, w)
  | None =>
      match w !! p with
      | None => (Raised (Exn MutagenError (u "No such file or directory")), w)
      | Some t =>
          let tags := delall (u "APIC") (delall (u "TALB")
                        (delall (u "TPE1") (delall (u "TIT2") (ensure_id3 t)))) in
          let tags := add_frame tags (TIT2 (title track)) in
          let tags := add_frame tags (TPE1 (artist track)) in
          let tags := match album track with
                      | Some ((_ :: _) as a) => add_frame tags (TALB a)
                      | _ => tags
                      end in
          match save_error env p with
          | Some e =>
              (Raised e,
               <[p := failed_save env p t (fst (embed_cover env track tags))]> w)
          | None =>
              (Normal (true, snd (embed_cover env track tags)),
               <[p := Some (fst (embed_cover env track tags))]> w)
          end
      end
  end.
Proof.
  unfold update_tags, bind, mp3_open, mp3_save, ret.
  destruct (open_error env p); [reflexivity|].
  destruct (w !! p) as [t|] eqn:Ep; [|reflexivity].
  cbv zeta. destruct (embed_cover env track _) as [tags art]. cbn [fst snd].
  destruct (save_error env p); rewrite Ep; reflexivity.
Qed.

Lemma fetch_fails_raise env url :
  fetch_fails env url -> exists e, fetch_cover env url = Raise e.
Proof.
  unfold fetch_fails, fetch_cover, raise_for_status.
  destruct url; eauto. destruct (http_get env s); eauto.
  intros [H1 H2].
  apply Z.leb_le in H1. apply Z.ltb_lt in H2. rewrite H1, H2. simpl. eauto.
Qed.

Lemma embed_cover_fails env track tags :
  fetch_fails env (cover_url track) -> embed_cover env track tags = (tags, false).
Proof.
  intros H. apply fetch_fails_raise in H as [e He]. unfold embed_cover.
  rewrite He. destruct (truthy _); reflexivity.
Qed.

Lemma embed_cover_without env track tags :
  embed_cover env (without_cover track) tags = (tags, false).
Proof. reflexivity. Qed.

(** C9 (amended). When a track has a cover URL and its fetch fails -- a
    4xx or 5xx status, a timeout, a transport error, or a URL that
    [requests] does not accept -- the tag writer does exactly what it does
    for the same track without cover URL: the failure is never its
    outcome, every result has [art_ok = false], and it completes with
    [(True, False)] whenever the container can be opened and saved. *)
Theorem update_tags_fetch_failure env p track (w : World) :
  truthy (cover_url track) = true ->
  fetch_fails env (cover_url track) ->
  update_tags env p track w = update_tags env p (without_cover track) w /\
  (forall ok art w', update_tags env p track w = (Normal (ok, art), w') -> art = false) /\
  (is_Some (w !! p) -> open_error env p = None -> save_error env p = None ->
   exists w', update_tags env p track w = (Normal (true, false), w')).
Proof.
  intros _ Hf. rewrite !update_tags_unfold. cbv zeta.
  destruct (open_error env p) as [e|].
  { repeat split; discriminate. }
  destruct (w !! p) as [t|].
  2:{ repeat split; try discriminate. intros [? [=]]. }
  rewrite (embed_cover_fails env track) by exact Hf.
  rewrite embed_cover_without. cbn [fst snd].
  destruct (save_error env p) as [e|].
  { repeat split; discriminate. }
  split; [reflexivity|]. split.
  - intros ok art w' [= _ <- _]. reflexivity.
  - eauto.
Qed.

Lemma update_tags_fetch_failure_witness :
  truthy (cover_url covered_track) = true /\
  fetch_fails not_found_env (cover_url covered_track) /\
  exists w', update_tags not_found_env (music "other.mp3") covered_track crowded
             = (Normal (true, false), w').
Proof.
  assert (H1 : truthy (cover_url covered_track) = true) by reflexivity.
  assert (H2 : fetch_fails not_found_env (cover_url covered_track))
    by (vm_compute; split; [discriminate | reflexivity]).
  split; [exact H1|]. split; [exact H2|].
  apply (update_tags_fetch_failure not_found_env (music "other.mp3")
           covered_track crowded H1 H2).
  - vm_compute. eauto.
  - reflexivity.
  - reflexivity.
Defined.

(** C9, as worded, fails: status 304 is not in 200-299, yet nothing
    raises, the (empty) body is embedded and [art_ok] is true. *)
Lemma non_2xx_status_counterexample :
  non_2xx not_modified_env (u "http://x/c.jpg") /\
  fst (update_tags not_modified_env (music "other.mp3") covered_track crowded)
  = Normal (true, true).
Proof. split; [vm_compute; intros [_ H]; discriminate H | vm_compute; reflexivity]. Qed.

Lemma update_tags_tags_ok env p track (w : World) ok art w' :
  update_tags env p track w = (Normal (ok, art), w') -> ok = true.
Proof.
  rewrite update_tags_unfold. cbv zeta.
  destruct (open_error env p); [discriminate|].
  destruct (w !! p); [|discriminate].
  destruct (save_error env p); [discriminate|]. intros [= <- _ _]. reflexivity.
Qed.

(** ** Per-file pipeline *)

(** One iteration of the loop, by cases. *)
Lemma loop_body_cases env args p s :
  let s' := snd (loop_body env args p s) in
  match shazam_identify_file env p with
  | None =>
      s' = mkState (world s) (skipped_result p) (results s ++ [skipped_result p])
                   (processed s) (S (unidentified s)) (errors s)
  | Some ti =>
      if dry_run args then
        s' = mkState (world s) (preview_result p ti)
                     (results s ++ [preview_result p ti])
                     (S (processed s)) (unidentified s) (errors s)
      else
        exists r w',
          ((s' = mkState w' r (results s ++ [r])
                         (S (processed s)) (unidentified s) (errors s) /\
            tags_ok r = true /\ error r = None)
           \/
           (s' = mkState w' r (results s ++ [r])
                         (processed s) (unidentified s) (S (errors s)) /\
            tags_ok r = false /\ exists msg, error r = Some msg))
          /\ identified r = true /\ skipped r = false /\ src_name r = name p
  end.
Proof.
  destruct s as [w r0 rs np nu ne].
  cbv [loop_body try_block]. 
  destruct (shazam_identify_file env p) as [ti|]; [|reflexivity].
  destruct (dry_run args) eqn:Ed.
  - rewrite andb_false_r. reflexivity.
  - cbn [negb]. rewrite andb_true_r.
    set (new_name := make_target_filename (artist ti) (title ti) (album ti)).
    destruct (bool_decide (new_name = name p)) eqn:En; cbn [negb].
    + cbv [bind modify try_except ret on_world world result results processed
           unidentified errors upd_result set_world snd].
      pose proof (nc_update_tags env p ti w) as Hnc.
      destruct (update_tags env p ti w) as [[[ok art]|e|] w1] eqn:Eu.
      * apply update_tags_tags_ok in Eu as ->.
        eexists _, w1. split; [left|]; repeat split; reflexivity.
      * eexists _, w1. split; [right|]; repeat split; try reflexivity.
        eexists. reflexivity.
      * exfalso. apply Hnc. reflexivity.
    + cbv [bind modify try_except ret on_world world result results processed
           unidentified errors upd_result set_world snd].
      pose proof (nc_safe_rename env p new_name w) as Hnc.
      destruct (safe_rename env p new_name w) as [[path|e|] w1] eqn:Es.
      * pose proof (nc_update_tags env path ti w1) as Hnc2.
        destruct (update_tags env path ti w1) as [[[ok art]|e|] w2] eqn:Eu.
        -- apply update_tags_tags_ok in Eu as ->.
           eexists _, w2. split; [left|]; repeat split; reflexivity.
        -- eexists _, w2. split; [right|]; repeat split; try reflexivity.
           eexists. reflexivity.
        -- exfalso. apply Hnc2. reflexivity.
      * eexists _, w1. split; [right|]; repeat split; try reflexivity.
        eexists. reflexivity.
      * exfalso. apply Hnc. reflexivity.
Qed.

Lemma loop_body_sound env args p s :
  exists r,
    results (snd (loop_body env args p s)) = results s ++ [r] /\
    file_ok env args p r /\
    processed (snd (loop_body env args p s))
      = (processed s + Nat.b2n (fully_tagged r))%nat /\
    unidentified (snd (loop_body env args p s))
      = (unidentified s + Nat.b2n (skipped r))%nat /\
    errors (snd (loop_body env args p s))
      = (errors s + Nat.b2n (has_error r))%nat /\
    (dry_run args = true -> world (snd (loop_body env args p s)) = world s).
Proof.
  pose proof (loop_body_cases env args p s) as H. cbv zeta in H.
  unfold file_ok, expected_preview, classes_held, fully_tagged, has_error.
  destruct (shazam_identify_file env p) as [ti|].
  - destruct (dry_run args) eqn:Ed.
    + rewrite H. exists (preview_result p ti). cbn.
      repeat split; auto; try lia; try discriminate.
    + destruct H as (r & w' & [(-> & Ht & He) | (-> & Ht & msg & He)] & Hi & Hs & Hn);
        exists r; cbn; rewrite Hi, Hs, Ht, He; cbn;
        repeat split; auto; try lia; try discriminate; eauto.
  - rewrite H. exists (skipped_result p). cbn.
    repeat split; auto; try lia; try discriminate.
Qed.

(** Failure isolation: no exception leaves an iteration of the loop. *)
Lemma loop_body_never_raises env args p s e :
  fst (loop_body env args p s) <> Raised e.
Proof.
  unfold loop_body, bind, try_except, modify.
  destruct (try_block env args p _) as [[[]|e'|] s1]; discriminate.
Qed.

(** ** Batch *)

Lemma count_if_app f l1 l2 :
  count_if f (l1 ++ l2) = (count_if f l1 + count_if f l2)%nat.
Proof. unfold count_if. rewrite List.filter_app, length_app. reflexivity. Qed.

Lemma count_if_one f r : count_if f [r] = Nat.b2n (f r).
Proof. unfold count_if. simpl. destruct (f r); reflexivity. Qed.

Lemma run_loop_sound env args files : forall s,
  exists rs,
    results (run_loop env args files s) = results s ++ rs /\
    Forall2 (file_ok env args) files rs /\
    processed (run_loop env args files s)
      = (processed s + count_if fully_tagged rs)%nat /\
    unidentified (run_loop env args files s)
      = (unidentified s + count_if skipped rs)%nat /\
    errors (run_loop env args files s)
      = (errors s + count_if has_error rs)%nat /\
    (dry_run args = true -> world (run_loop env args files s) = world s).
Proof.
  induction files as [|p files IH]; intros s.
  - exists []. cbn. rewrite app_nil_r. unfold count_if. cbn.
    repeat split; auto; lia.
  - destruct (loop_body_sound env args p s) as (r & Hr & Hok & Hp & Hu & He & Hw).
    destruct (IH (snd (loop_body env args p s)))
      as (rs & Hrs & Hoks & Hps & Hus & Hes & Hws).
    exists (r :: rs). cbn [run_loop].
    rewrite Hrs, Hr, Hps, Hus, Hes, Hp, Hu, He.
    change (r :: rs) with ([r] ++ rs).
    rewrite !count_if_app, !count_if_one, <- app_assoc.
    repeat split; auto; try lia.
    + constructor; assumption.
    + intros Hd. rewrite Hws, Hw by exact Hd. reflexivity.
Qed.

(** The summary of a run, in one statement. *)
Lemma process_files_sound env args files (w : World) :
  let sm := fst (process_files_async env args files w) in
  Forall2 (file_ok env args) files (sum_results sm) /\
  sum_processed sm = count_if fully_tagged (sum_results sm) /\
  sum_unidentified sm = count_if skipped (sum_results sm) /\
  sum_errors sm = count_if has_error (sum_results sm) /\
  sum_total sm = length files /\
  (dry_run args = true -> snd (process_files_async env args files w) = w).
Proof.
  destruct (run_loop_sound env args files (initial_state w))
    as (rs & Hrs & Hok & Hp & Hu & He & Hw).
  cbn. rewrite Hrs, Hp, Hu, He. cbn. repeat split; auto.
Qed.

(** Every result is in exactly one class, so the three counts add up to
    the length. *)
Lemma classes_partition rs :
  Forall (fun r => classes_held r = 1%nat) rs ->
  (count_if fully_tagged rs + count_if skipped rs + count_if has_error rs
   = length rs)%nat.
Proof.
  induction 1 as [|r rs Hr Hrs IH]; [reflexivity|].
  change (r :: rs) with ([r] ++ rs). rewrite !count_if_app, !count_if_one.
  unfold classes_held, fully_tagged, has_error in *. cbn [length app]. lia.
Qed.

Lemma file_ok_classes env args files rs :
  Forall2 (file_ok env args) files rs ->
  Forall (fun r => classes_held r = 1%nat) rs /\ length rs = length files.
Proof.
  induction 1 as [|p r files rs (_ & Hc & _) H [IH1 IH2]]; [split; [constructor | reflexivity]|].
  split; [constructor; assumption | cbn; congruence].
Qed.

Lemma counters_total env args files (w : World) :
  let sm := fst (process_files_async env args files w) in
  (sum_processed sm + sum_unidentified sm + sum_errors sm = sum_total sm)%nat.
Proof.
  pose proof (process_files_sound env args files w) as H. cbv zeta in *.
  destruct H as (Hok & -> & -> & -> & -> & _).
  apply file_ok_classes in Hok as [Hc <-]. apply classes_partition, Hc.
Qed.

(** ** The summary of a run *)

Lemma shazam_cover env p ti :
  shazam_identify_file env p = Some ti ->
  truthy (cover_url ti) = true <-> cover_url ti <> PNone.
Proof.
  unfold shazam_identify_file. intros H.
  destruct (recognize env p) as [payload| |]; try discriminate.
  destruct (truthy payload); [|discriminate]. cbn [negb] in H.
  destruct (extract_trackinfo_from_shazam payload) as [r|] eqn:E; [|discriminate].
  subst r. apply extract_some_inv in E as (_ & _ & _ & _ & _ & _ & _ & _ & _ & _ & _ & Hc).
  split.
  - intros Ht Hn. rewrite Hn in Ht. discriminate.
  - intros Hn. destruct Hc; [contradiction | assumption].
Qed.

(** C1. For every file of the batch, in order, the final result carries
    the name of the file and satisfies exactly one of the three terminal
    classifications: [skipped]; [error] not null; [identified] and
    [tags_ok]. *)
Theorem result_invariant env args files (w : World) :
  Forall2 (fun p r => src_name r = name p /\ classes_held r = 1%nat)
          files (sum_results (fst (process_files_async env args files w))).
Proof.
  pose proof (process_files_sound env args files w) as H. cbv zeta in H.
  destruct H as (Hok & _).
  eapply Forall2_impl; [exact Hok|]. intros p r (Hn & Hc & _). auto.
Qed.

(** C2. What preview mode does: no rename and no tag write reaches the
    disk, for any list of files, and every result keeps the source name
    as destination name with [renamed] false -- also for a file whose
    target name differs from its name, so the rename that would be made
    is not reported.  A file that is not identified gets the skipped
    result; an identified file gets [tags_ok] true, no error, and
    [art_ok] true exactly when the extracted [TrackInfo] has a cover
    URL. *)
Theorem dry_run_preview env args files (w : World) :
  dry_run args = true ->
  snd (process_files_async env args files w) = w /\
  Forall2
    (fun p r =>
       src_name r = name p /\ dest_name r = name p /\ renamed r = false /\
       match shazam_identify_file env p with
       | None =>
           skipped r = true /\ identified r = false /\ error r = None /\
           tags_ok r = false /\ art_ok r = false
       | Some ti =>
           identified r = true /\ skipped r = false /\ error r = None /\
           tags_ok r = true /\ (art_ok r = true <-> cover_url ti <> PNone)
       end)
    files (sum_results (fst (process_files_async env args files w))).
Proof.
  intros Hd. pose proof (process_files_sound env args files w) as H.
  cbv zeta in H. destruct H as (Hok & _ & _ & _ & _ & Hw).
  split; [exact (Hw Hd)|].
  eapply Forall2_impl; [exact Hok|]. intros p r (_ & _ & _ & Hr).
  specialize (Hr Hd). subst r. unfold expected_preview.
  destruct (shazam_identify_file env p) as [ti|] eqn:E; cbn; repeat split; auto.
  - apply (shazam_cover env p ti E).
  - apply (shazam_cover env p ti E).
Qed.

(** The failing input: [x.mp3] is identified as a track whose target name
    is another name, so a run would rename it; in preview mode its result
    says [renamed] false and keeps [x.mp3] as destination name. *)
Lemma dry_run_preview_witness :
  dry_run (mkArgs true false) = true /\
  would_rename preview_env (music "x.mp3") = true /\
  exists r,
    sum_results (fst (process_files_async preview_env (mkArgs true false)
                        [music "x.mp3"] library)) = [r] /\
    renamed r = false /\ dest_name r = u "x.mp3" /\ tags_ok r = true.
Proof.
  split; [reflexivity|]. split; [vm_compute; reflexivity|].
  destruct (dry_run_preview preview_env (mkArgs true false)
              [music "x.mp3"] library eq_refl) as [_ H].
  remember (sum_results (fst (process_files_async preview_env (mkArgs true false)
                                [music "x.mp3"] library))) as rs eqn:Ers.
  clear Ers. inversion H as [|p r ps rs' Hr Hrest Ep Er]; subst rs.
  inversion Hrest; subst rs'. exists r. split; [reflexivity|].
  destruct Hr as (_ & Hdest & Hren & Hid).
  split; [exact Hren|]. split; [exact Hdest|].
  assert (E : shazam_identify_file preview_env (music "x.mp3")
              = Some (mkTrackInfo (u "Queen") (u "Bohemian Rhapsody")
                        (Some (u "A Night at the Opera"))
                        (str "http://x/cover.jpg")))
    by (vm_compute; reflexivity).
  rewrite E in Hid. exact (proj1 (proj2 (proj2 (proj2 Hid)))).
Defined.

(** Outside preview mode the same file is renamed, and its result says
    so. *)
Example rename_outside_preview :
  sum_results (fst (process_files_async preview_env (mkArgs false false)
                      [music "x.mp3"] library))
  = [mkFileResult (u "x.mp3")
       (u "Queen - Bohemian Rhapsody - A Night at the Opera.mp3")
       true true true false false None].
Proof. vm_compute. reflexivity. Qed.

(** C6 (amended). In every run [processed + unidentified + errors]
    equals [total]: each counter counts one class of results -- [errors]
    the results with an error, [processed] those identified and tagged,
    [unidentified] those skipped -- and every file has one result in
    exactly one class.  A file that is renamed and then fails in tagging
    counts under [errors] only. *)
Theorem counters_partition env args files (w : World) :
  let sm := fst (process_files_async env args files w) in
  (sum_processed sm + sum_unidentified sm + sum_errors sm = sum_total sm)%nat /\
  sum_errors sm = count_if has_error (sum_results sm) /\
  sum_processed sm = count_if fully_tagged (sum_results sm) /\
  sum_unidentified sm = count_if skipped (sum_results sm) /\
  length (sum_results sm) = sum_total sm.
Proof.
  pose proof (counters_total env args files w) as Ht.
  pose proof (process_files_sound env args files w) as H. cbv zeta in *.
  destruct H as (Hok & Hp & Hu & He & Hn & _).
  apply file_ok_classes in Hok as [_ Hl]. rewrite Hn. auto.
Qed.

(** C6, as worded, fails: no run has a file renamed and then failed in
    which the three counters do not add up to the total. *)
Lemma counters_never_diverge :
  ~ exists env args files (w : World),
      let sm := fst (process_files_async env args files w) in
      (exists r, In r (sum_results sm) /\ renamed r = true /\ has_error r = true) /\
      (sum_processed sm + sum_unidentified sm + sum_errors sm <> sum_total sm)%nat.
Proof.
  intros (env & args & files & w & _ & Hne).
  apply Hne. apply counters_total.
Qed.

(** The run that the specification has in mind: the disk is full, so the
    file is renamed and then fails in tagging.  It counts once. *)
Example renamed_then_failed :
  fst (process_files_async disk_full_env (mkArgs false false)
         [music "x.mp3"] library)
  = mkSummary
      [mkFileResult (u "x.mp3")
         (u "Queen - Bohemian Rhapsody - A Night at the Opera.mp3")
         true true false false false (Some (u "No space left on device"))]
      0 0 1 1.
Proof. vm_compute. reflexivity. Qed.

(** C10. Whenever the tag writer returns, the first component of its
    result is true; in a summary, an identified file has [tags_ok] false
    only together with an error. *)
Theorem tags_ok_never_false env :
  (forall p track (w : World) ok art w',
     update_tags env p track w = (Normal (ok, art), w') -> ok = true) /\
  (forall args files (w : World),
     Forall (fun r => identified r = true -> tags_ok r = false ->
                      exists msg, error r = Some msg)
            (sum_results (fst (process_files_async env args files w)))).
Proof.
  split.
  - intros p track w ok art w'. rewrite update_tags_unfold. cbv zeta.
    destruct (open_error env p); [discriminate|].
    destruct (w !! p); [|discriminate].
    destruct (save_error env p); [discriminate|]. intros [= <- _ _]. reflexivity.
  - intros args files w.
    pose proof (process_files_sound env args files w) as H. cbv zeta in H.
    destruct H as (Hok & _).
    induction Hok as [|p r fs rs (_ & _ & Hr & _) _ IH]; constructor; assumption.
Qed.

Lemma tags_ok_never_false_witness :
  update_tags quiet_env (music "other.mp3") covered_track crowded
  = (Normal (true, false),
     snd (update_tags quiet_env (music "other.mp3") covered_track crowded)) /\
  true = true.
Proof.
  assert (H : update_tags quiet_env (music "other.mp3") covered_track crowded
              = (Normal (true, false),
                 snd (update_tags quiet_env (music "other.mp3") covered_track crowded)))
    by (vm_compute; reflexivity).
  split; [exact H|].
  exact (eq_sym (proj1 (tags_ok_never_false quiet_env) _ _ _ _ _ _ H)).
Defined.

(** * Further properties *)

(** ** Filename sanitizer *)

Lemma untitled_valid : Forall valid (u "untitled").
Proof. repeat constructor. Qed.

Lemma sanitize_filename_valid x :
  sanitize_filename x <> [] /\ Forall valid (sanitize_filename x).
Proof.
  unfold sanitize_filename. pose proof (sanitize_core_valid x) as Hv.
  destruct (sanitize_core x) as [|c r].
  - split; [discriminate | exact untitled_valid].
  - split; [discriminate | exact Hv].
Qed.

(** X1. A sanitized name is never empty and holds none of the reserved
    characters. *)
Theorem sanitize_filename_safe (x : pystr) :
  sanitize_filename x <> [] /\
  forall c, In c (sanitize_filename x) -> is_invalid c = false.
Proof.
  destruct (sanitize_filename_valid x) as [Hne Hv].
  split; [exact Hne|]. apply List.Forall_forall, Hv.
Qed.

Lemma sub_multispace_plain t s :
  Forall (fun c => is_space c = false) t ->
  sub_multispace (t ++ s) = t ++ sub_multispace s.
Proof.
  induction 1 as [|c t Hc Ht IH]; [reflexivity|].
  simpl app. rewrite sub_multispace_cons, Hc, IH. reflexivity.
Qed.

Lemma good_nonspace h t : good h t -> Forall (fun c => is_space c = false) t.
Proof.
  intros [_ [[_ ->] | Hp]].
  - repeat constructor.
  - eapply Forall_impl; [exact Hp|]. intros c [Hc _]. exact Hc.
Qed.

Lemma unwords_head h ts :
  Forall (good h) ts ->
  match unwords ts with [] => ts = [] | c :: _ => is_space c = false end.
Proof.
  destruct 1 as [|t ts Ht Hts]; [reflexivity|].
  pose proof (good_nonspace h t Ht) as Hn. destruct Ht as [Hne _].
  destruct t as [|c t]; [congruence|]. inversion Hn; subst.
  simpl. destruct ts; assumption.
Qed.

(** Collapsing whitespace leaves tokens joined by single spaces as they
    are. *)
Lemma sub_multispace_unwords h ts :
  Forall (good h) ts -> sub_multispace (unwords ts) = unwords ts.
Proof.
  induction 1 as [|t ts Ht Hts IH]; [reflexivity|].
  destruct ts as [|t' ts'].
  - simpl. rewrite <- (app_nil_r t) at 1.
    rewrite sub_multispace_plain by exact (good_nonspace h t Ht).
    rewrite sub_multispace_nil. apply app_nil_r.
  - rewrite unwords_cons by discriminate.
    rewrite sub_multispace_plain by exact (good_nonspace h t Ht).
    rewrite sub_multispace_cons, is_space_sp.
    pose proof (unwords_head h (t' :: ts') Hts) as Hh.
    destruct (unwords (t' :: ts')) as [|c r] eqn:E; [discriminate|].
    simpl lstrip. rewrite Hh. rewrite IH. reflexivity.
Qed.

Lemma sanitize_filename_tokens x :
  exists ts, Forall (good true) ts /\ sanitize_filename x = unwords ts /\
             rstrip is_space_or_dot (unwords ts) = unwords ts.
Proof.
  unfold sanitize_filename.
  destruct (sanitize_core x) as [|c r] eqn:E.
  - exists [u "untitled"]. split; [|split; reflexivity].
    constructor; [|constructor]. split; [discriminate|]. right.
    repeat constructor; discriminate.
  - destruct (sanitize_core_tokens x) as (ts & Hg & Hts).
    exists ts. rewrite <- E, <- Hts. split; [exact Hg|]. split; [reflexivity|].
    unfold sanitize_core at 1 2. unfold tidy at 1 3. apply rstrip_idem.
Qed.

(** X2. A sanitized name is tidy: collapsing whitespace, stripping
    whitespace at both ends and stripping trailing spaces and periods all
    leave it unchanged.  So its only whitespace is single spaces between
    other characters, and it does not end with a period. *)
Theorem sanitize_filename_tidy (x : pystr) :
  sub_multispace (sanitize_filename x) = sanitize_filename x /\
  strip (sanitize_filename x) = sanitize_filename x /\
  rstrip is_space_or_dot (sanitize_filename x) = sanitize_filename x.
Proof.
  destruct (sanitize_filename_tokens x) as (ts & Hg & -> & Hr).
  assert (Hg' : Forall (good false) ts).
  { eapply Forall_impl; [exact Hg|]. exact good_weaken. }
  pose proof (sub_multispace_unwords true ts Hg) as Hm.
  split; [exact Hm|]. split; [|exact Hr].
  rewrite <- Hm at 1. rewrite strip_sub_multispace, toks_unwords by exact Hg'.
  reflexivity.
Qed.

Lemma good_true_hy t : good true t -> In hy t -> t = [hy].
Proof.
  intros [_ [[_ ->] | Hp]] Hin; [reflexivity|].
  apply (proj1 (List.Forall_forall _ _) Hp) in Hin as [_ Hne].
  exfalso. exact (Hne eq_refl eq_refl).
Qed.

Lemma unwords_hyphen ts :
  Forall (good true) ts ->
  forall a b, unwords ts = a ++ hy :: b ->
    (a = [] \/ exists a', a = a' ++ [sp]) /\
    (b = [] \/ exists b', b = sp :: b').
Proof.
  induction 1 as [|t ts Ht Hts IH]; intros a b E.
  - destruct a; discriminate.
  - destruct ts as [|t' ts'].
    + simpl in E. assert (Hin : In hy t) by (rewrite E; apply in_elt).
      rewrite (good_true_hy t Ht Hin) in E.
      destruct a as [|c [|c' a]]; try discriminate.
      injection E as <-. auto.
    + rewrite unwords_cons in E by discriminate.
      apply List.app_eq_app in E as [l [[Et El] | [Ea El]]].
      * destruct l as [|c l]; [discriminate|]. injection El as <- El.
        assert (Hin : In hy t) by (rewrite Et; apply in_elt).
        rewrite (good_true_hy t Ht Hin) in Et.
        destruct a as [|c [|c' a]]; try discriminate.
        injection Et as <-. split; [auto|]. right. eauto.
      * destruct l as [|c l]; [discriminate|]. injection El as <- El.
        specialize (IH _ _ El) as [IHa IHb]. split; [|exact IHb].
        right. destruct IHa as [-> | [a' ->]].
        -- exists t. exact Ea.
        -- exists (t ++ sp :: a'). rewrite Ea, <- app_assoc. reflexivity.
Qed.

(** X3. In a sanitized name every hyphen stands alone: it is at the
    start of the name or follows a space, and it is at the end of the name
    or precedes a space. *)
Theorem sanitize_filename_hyphens (x a b : pystr) :
  sanitize_filename x = a ++ hy :: b ->
  (a = [] \/ exists a', a = a' ++ [sp]) /\
  (b = [] \/ exists b', b = sp :: b').
Proof.
  destruct (sanitize_filename_tokens x) as (ts & Hg & -> & _).
  apply unwords_hyphen, Hg.
Qed.

Lemma sanitize_filename_hyphens_witness :
  sanitize_filename (u "a-b") = u "a " ++ hy :: u " b" /\
  ((u "a " = [] \/ exists a', u "a " = a' ++ [sp]) /\
   (u " b" = [] \/ exists b', u " b" = sp :: b')).
Proof.
  assert (H : sanitize_filename (u "a-b") = u "a " ++ hy :: u " b")
    by (vm_compute; reflexivity).
  split; [exact H|]. exact (sanitize_filename_hyphens _ _ _ H).
Defined.

Lemma sub_invalid_app a b : sub_invalid (a ++ b) = sub_invalid a ++ sub_invalid b.
Proof.
  induction a as [|c a IH]; [reflexivity|].
  simpl app. rewrite !sub_invalid_cons, IH. reflexivity.
Qed.

(** A run of plain characters at the end of a string ends its last
    token. *)
Lemma toks_plain_suffix h t :
  Forall (plain h) t -> t <> [] ->
  forall y cur, exists ts w, toks h cur (y ++ t) = ts ++ [w ++ t].
Proof.
  intros Ht Hne. induction y as [|c y IH]; intros cur.
  - exists [], cur. simpl app. rewrite <- (app_nil_r t) at 1.
    rewrite toks_plain_app by exact Ht. simpl.
    apply flush_nonempty. destruct cur, t; try discriminate; congruence.
  - simpl app. simpl toks. destruct (is_space c).
    + destruct (IH []) as (ts & w & ->). exists (flush cur ++ ts), w.
      rewrite app_assoc. reflexivity.
    + destruct (h && (c =? hy)).
      * destruct (IH []) as (ts & w & ->). exists (flush cur ++ [hy] :: ts), w.
        rewrite <- app_assoc. reflexivity.
      * apply IH.
Qed.

Lemma unwords_snoc ts x : exists pre, unwords (ts ++ [x]) = pre ++ x.
Proof.
  induction ts as [|t ts [pre IH]]; [exists []; reflexivity|].
  exists (t ++ sp :: pre). simpl app. rewrite unwords_cons by (destruct ts; discriminate).
  rewrite IH, <- app_assoc. reflexivity.
Qed.

Lemma rstrip_keeps_suffix p pre t :
  rstrip p t = t -> t <> [] -> rstrip p (pre ++ t) = pre ++ t.
Proof.
  intros Ht Hne. rewrite rstrip_app, Ht. destruct t; [congruence | reflexivity].
Qed.

(** A suffix of plain characters that does not end with a space or a
    period survives sanitization. *)
Lemma sanitize_core_suffix t :
  Forall (plain true) t -> Forall valid t ->
  rstrip is_space_or_dot t = t -> t <> [] ->
  forall y, exists z, sanitize_core (y ++ t) = z ++ t.
Proof.
  intros Hp Hv Hr Hne y. unfold sanitize_core.
  rewrite sub_invalid_app, (sub_invalid_id t) by exact Hv.
  assert (Hp' : Forall (plain false) t).
  { eapply Forall_impl; [exact Hp|]. intros c [Hc _]. split; [exact Hc | discriminate]. }
  rewrite (tidy_toks (sub_invalid y ++ t)).
  destruct (toks_plain_suffix false t Hp' Hne (sub_invalid y) []) as (ts & w & ->).
  destruct (unwords_snoc ts (w ++ t)) as [pre ->]. rewrite app_assoc.
  rewrite rstrip_keeps_suffix by assumption.
  rewrite tidy_toks, toks_sub_hyphen.
  destruct (toks_plain_suffix true t Hp Hne (pre ++ w) []) as (ts' & w' & ->).
  destruct (unwords_snoc ts' (w' ++ t)) as [pre' ->]. rewrite app_assoc.
  rewrite rstrip_keeps_suffix by assumption. eauto.
Qed.

Lemma mp3_suffix y : exists z, sanitize_filename (y ++ u ".mp3") = z ++ u ".mp3".
Proof.
  destruct (sanitize_core_suffix (u ".mp3")) with (y := y) as [z Hz].
  - repeat constructor; discriminate.
  - repeat constructor.
  - reflexivity.
  - discriminate.
  - exists z. unfold sanitize_filename. rewrite Hz.
    destruct z; reflexivity.
Qed.

(** X4. Whatever the artist, the title and the album, the target name
    ends with the extension [.mp3]. *)
Theorem make_target_filename_extension (a t : pystr) (al : option pystr) :
  exists z, make_target_filename a t al = z ++ u ".mp3".
Proof.
  unfold make_target_filename. destruct al as [[|c al]|].
  - rewrite !app_assoc. apply mp3_suffix.
  - rewrite !app_assoc. apply mp3_suffix.
  - rewrite !app_assoc. apply mp3_suffix.
Qed.

Lemma valid_no_slash s : Forall valid s -> no_slash s.
Proof.
  unfold no_slash. induction 1 as [|c s Hc Hs IH]; [reflexivity|].
  cbn [existsb]. rewrite IH, orb_false_r.
  destruct (N.eqb_spec slash c) as [<-|]; [discriminate | reflexivity].
Qed.

(** X5. A sanitized name is always accepted as the new name of a path:
    [with_name] does not raise on it, so in the pipeline the rename never
    fails on the form of the target name. *)
Theorem with_name_sanitized (src : Path) (x : pystr) :
  name src <> [] ->
  with_name src (sanitize_filename x)
  = Ok (mkPath (parent src) (sanitize_filename x)).
Proof.
  intros Hn. destruct (sanitize_filename_valid x) as [Hne Hv].
  destruct (sanitize_filename_tokens x) as (ts & _ & Ets & Hr).
  rewrite <- Ets in Hr.
  apply with_name_intro; [exact Hn | exact Hne | |].
  - apply valid_no_slash, Hv.
  - intros E. rewrite E in Hr. discriminate.
Qed.

Lemma with_name_sanitized_witness :
  name (music "x.mp3") <> [] /\
  with_name (music "x.mp3") (sanitize_filename (u "a/b"))
  = Ok (music "a b").
Proof.
  assert (H : name (music "x.mp3") <> []) by discriminate.
  split; [exact H|].
  exact (with_name_sanitized (music "x.mp3") (u "a/b") H).
Defined.

(** ** Truncation of labels *)

(** X6. With a bound of at least one, [trunc] returns at most that many
    characters: the string itself when it fits, otherwise its first
    [maxlen - 1] characters followed by an ellipsis. *)
Theorem trunc_within (s : pystr) (maxlen : Z) :
  (1 <= maxlen)%Z ->
  (Z.of_nat (length (trunc s maxlen)) <= maxlen)%Z /\
  ((Z.of_nat (length s) <= maxlen)%Z -> trunc s maxlen = s) /\
  ((maxlen < Z.of_nat (length s))%Z ->
   trunc s maxlen = take (Z.to_nat (maxlen - 1)) s ++ [ellipsis]).
Proof.
  intros H. unfold trunc, py_slice_to.
  destruct (Z.leb_spec (Z.of_nat (length s)) maxlen) as [Hle | Hgt].
  - repeat split; auto; lia.
  - destruct (Z.leb_spec 0 (maxlen - 1)) as [_ | Hneg]; [|lia].
    repeat split; auto; try lia.
    rewrite length_app, length_take. simpl. lia.
Qed.

Lemma trunc_within_witness :
  (1 <= 3)%Z /\ trunc (u "abcdef") 3 = u "ab" ++ [ellipsis].
Proof.
  assert (H : (1 <= 3)%Z) by lia. split; [exact H|].
  apply (proj2 (proj2 (trunc_within (u "abcdef") 3 H))). vm_compute. reflexivity.
Defined.

(** X7. With a bound of zero or less the slice counts from the end: a
    string that is not empty keeps all but [1 - maxlen] of its characters
    and gains the ellipsis, so the result is longer than the bound. *)
Theorem trunc_nonpositive (s : pystr) (maxlen : Z) :
  (maxlen <= 0)%Z -> s <> [] ->
  trunc s maxlen
  = take (Z.to_nat (Z.of_nat (length s) + maxlen - 1)) s ++ [ellipsis] /\
  Z.of_nat (length (trunc s maxlen)) = Z.max 1 (Z.of_nat (length s) + maxlen).
Proof.
  intros H Hne. unfold trunc, py_slice_to.
  assert (0 < length s)%nat by (destruct s; [congruence | simpl; lia]).
  destruct (Z.leb_spec (Z.of_nat (length s)) maxlen) as [Hle | Hgt]; [lia|].
  destruct (Z.leb_spec 0 (maxlen - 1)) as [Hpos | Hneg]; [lia|].
  replace (Z.of_nat (length s) + (maxlen - 1))%Z
    with (Z.of_nat (length s) + maxlen - 1)%Z by lia.
  split; [reflexivity|].
  rewrite length_app, length_take. simpl. lia.
Qed.

Lemma trunc_nonpositive_witness :
  (0 <= 0)%Z /\ u "abc" <> [] /\ trunc (u "abc") 0 = u "ab" ++ [ellipsis].
Proof.
  assert (H : (0 <= 0)%Z) by lia.
  assert (Hne : u "abc" <> []) by discriminate.
  split; [exact H|]. split; [exact Hne|].
  exact (proj1 (trunc_nonpositive (u "abc") 0 H Hne)).
Defined.

(** ** Image type sniffing *)

Lemma starts_with_take prefix : forall n data,
  (length prefix <= n)%nat ->
  starts_with prefix (take n data) = starts_with prefix data.
Proof.
  induction prefix as [|x prefix IH]; intros n data Hn; [reflexivity|].
  destruct n as [|n]; [simpl in Hn; lia|].
  destruct data as [|y data]; [reflexivity|].
  simpl. rewrite IH by (simpl in Hn; lia). reflexivity.
Qed.

Lemma starts_with_short prefix : forall data,
  (length data < length prefix)%nat -> starts_with prefix data = false.
Proof.
  induction prefix as [|x prefix IH]; intros data H; [simpl in H; lia|].
  destruct data as [|y data]; [reflexivity|].
  simpl. rewrite IH by (simpl in H; lia). apply andb_false_r.
Qed.

(** X8. The MIME type depends on the first six bytes only. *)
Theorem sniff_image_mime_prefix (data : list N) :
  sniff_image_mime (take 6 data) = sniff_image_mime data.
Proof.
  unfold sniff_image_mime.
  rewrite !starts_with_take by (unfold u; simpl; lia). reflexivity.
Qed.

(** X9. Fewer than three bytes, an empty body in particular, are never
    taken for an image: the type is the generic one. *)
Theorem sniff_image_mime_short (data : list N) :
  (length data < 3)%nat ->
  sniff_image_mime data = u "application/octet-stream".
Proof.
  intros H. unfold sniff_image_mime.
  rewrite !starts_with_short by (unfold u; simpl; lia). reflexivity.
Qed.

Lemma sniff_image_mime_short_witness :
  (length (@nil N) < 3)%nat /\
  sniff_image_mime [] = u "application/octet-stream".
Proof.
  assert (H : (length (@nil N) < 3)%nat) by (simpl; lia).
  split; [exact H|]. exact (sniff_image_mime_short [] H).
Defined.

(** ** Payload extractor, continued *)

Lemma normalize_idem s : normalize (normalize s) = normalize s.
Proof.
  unfold normalize. rewrite (strip_sub_multispace s).
  rewrite strip_sub_multispace, toks_unwords; [reflexivity|].
  apply toks_all_good. constructor.
Qed.

(** X10. The strings of an extracted [TrackInfo] are normalized: artist,
    title and album are unchanged by a further collapse of whitespace and
    strip. *)
Theorem extract_fields_normalized (payload : pyval) (ti : TrackInfo) :
  extract_trackinfo_from_shazam payload = Ok (Some ti) ->
  normalize (artist ti) = artist ti /\
  normalize (title ti) = title ti /\
  forall a, album ti = Some a -> normalize a = a.
Proof.
  intros H.
  destruct (extract_some_inv _ _ H)
    as (t & a & al & _ & _ & _ & _ & -> & -> & _ & Hal & _).
  split; [apply normalize_idem|]. split; [apply normalize_idem|].
  intros x Hx. destruct Hal as [[_ Hn] | [_ (s & _ & Hs)]]; [congruence|].
  rewrite Hs in Hx. injection Hx as <-. apply normalize_idem.
Qed.

Lemma extract_fields_normalized_witness :
  extract_trackinfo_from_shazam queen
    = Ok (Some (mkTrackInfo (u "Queen") (u "Bohemian Rhapsody")
                  (Some (u "A Night at the Opera")) (str "http://x/cover.jpg"))) /\
  normalize (u "Queen") = u "Queen".
Proof.
  assert (H : extract_trackinfo_from_shazam queen
    = Ok (Some (mkTrackInfo (u "Queen") (u "Bohemian Rhapsody")
                  (Some (u "A Night at the Opera")) (str "http://x/cover.jpg"))))
    by (vm_compute; reflexivity).
  split; [exact H|]. exact (proj1 (extract_fields_normalized _ _ H)).
Defined.

Lemma pick_cover_value images c :
  pick_cover images = Ok c ->
  exists d, images = PDict d /\
    c = py_or (match dict_get d (u "coverarthq") with Some x => x | None => PNone end)
          (py_or (match dict_get d (u "coverart") with Some x => x | None => PNone end)
             (py_or (match dict_get d (u "background") with Some x => x | None => PNone end)
                PNone)).
Proof.
  unfold pick_cover. destruct images; try discriminate.
  rewrite !py_get_dict. simpl res_bind. unfold py_or. intros H. exists d.
  split; [reflexivity|].
  destruct (truthy (match dict_get d (u "coverarthq") with Some x => x | None => PNone end));
    [congruence|].
  destruct (truthy (match dict_get d (u "coverart") with Some x => x | None => PNone end));
    congruence.
Qed.

(** X11. The cover URL of an extracted [TrackInfo] is the first
    non-empty value among [coverarthq], [coverart] and [background] of the
    images object, in this order, and [None] when there is none. *)
Theorem extract_cover_priority (payload : pyval) (ti : TrackInfo) :
  extract_trackinfo_from_shazam payload = Ok (Some ti) ->
  cover_url ti
  = py_or (image_field payload (u "coverarthq"))
      (py_or (image_field payload (u "coverart"))
         (py_or (image_field payload (u "background")) PNone)).
Proof.
  unfold extract_trackinfo_from_shazam.
  destruct (extract_body payload) as [r|e] eqn:E; [|discriminate].
  intros [= ->]. unfold extract_body in E.
  unfold image_field, images_of, track_of.
  destruct (py_get payload (u "track")) as [track0|]; [|discriminate].
  simpl res_bind in E.
  destruct (py_get (py_or track0 (PDict [])) (u "title")) as [t|]; [|discriminate].
  simpl res_bind in E.
  destruct (py_get (py_or track0 (PDict [])) (u "subtitle")) as [a|]; [|discriminate].
  simpl res_bind in E.
  destruct (negb (truthy t) || negb (truthy a)); [discriminate|].
  destruct (py_get_default (py_or track0 (PDict [])) (u "sections") (PList []))
    as [secs0|]; [|discriminate].
  simpl res_bind in E.
  destruct (py_iter (py_or secs0 (PList []))) as [secs|]; [|discriminate].
  simpl res_bind in E.
  destruct (scan_sections secs PNone) as [al|]; [|discriminate].
  simpl res_bind in E.
  destruct (py_get_default (py_or track0 (PDict [])) (u "images") (PDict []))
    as [images0|]; [|discriminate].
  simpl res_bind in E.
  destruct (pick_cover (py_or images0 (PDict []))) as [cover|] eqn:Ec; [|discriminate].
  simpl res_bind in E.
  apply pick_cover_value in Ec as (d & -> & ->).
  destruct (py_normalize a) as [a'|]; [|discriminate]. simpl res_bind in E.
  destruct (py_normalize t) as [t'|]; [|discriminate]. simpl res_bind in E.
  rewrite !py_get_dict.
  destruct (truthy al).
  - destruct (py_normalize al); [|discriminate]. simpl in E.
    injection E as <-. reflexivity.
  - simpl in E. injection E as <-. reflexivity.
Qed.

Lemma extract_cover_priority_witness :
  extract_trackinfo_from_shazam queen
    = Ok (Some (mkTrackInfo (u "Queen") (u "Bohemian Rhapsody")
                  (Some (u "A Night at the Opera")) (str "http://x/cover.jpg"))) /\
  str "http://x/cover.jpg"
  = py_or (image_field queen (u "coverarthq"))
      (py_or (image_field queen (u "coverart"))
         (py_or (image_field queen (u "background")) PNone)).
Proof.
  assert (H : extract_trackinfo_from_shazam queen
    = Ok (Some (mkTrackInfo (u "Queen") (u "Bohemian Rhapsody")
                  (Some (u "A Night at the Opera")) (str "http://x/cover.jpg"))))
    by (vm_compute; reflexivity).
  split; [exact H|]. exact (extract_cover_priority _ _ H).
Defined.

Lemma dict_get_some_nonempty d k v : dict_get d k = Some v -> truthy (PDict d) = true.
Proof. destruct d; [discriminate | reflexivity]. Qed.

(** X12. A track with a non-empty title and subtitle and without
    sections and images is enough: the extraction succeeds, with the
    normalized subtitle as artist, the normalized title, no album and no
    cover. *)
Theorem extract_minimal (pd d : list (pystr * pyval)) (t a : pystr) :
  dict_get pd (u "track") = Some (PDict d) ->
  dict_get d (u "title") = Some (PStr t) -> t <> [] ->
  dict_get d (u "subtitle") = Some (PStr a) -> a <> [] ->
  dict_get d (u "sections") = None ->
  dict_get d (u "images") = None ->
  extract_trackinfo_from_shazam (PDict pd)
  = Ok (Some (mkTrackInfo (normalize a) (normalize t) None PNone)).
Proof.
  intros Htrack Ht Htne Ha Hane Hs Hi.
  unfold extract_trackinfo_from_shazam, extract_body.
  unfold py_get, py_get_default. rewrite Htrack. cbn [res_bind]. cbv zeta.
  replace (py_or (PDict d) (PDict [])) with (PDict d)
    by (unfold py_or; rewrite (dict_get_some_nonempty d _ _ Ht); reflexivity).
  rewrite Ht. cbn [res_bind]. rewrite Ha. cbn [res_bind].
  destruct t as [|c t]; [congruence|]. destruct a as [|c' a]; [congruence|].
  cbn [truthy negb orb]. rewrite Hs. cbn [res_bind py_or truthy py_iter scan_sections].
  rewrite Hi. reflexivity.
Qed.

Lemma extract_minimal_witness :
  dict_get [(u "track", dict [("title", str "T"); ("subtitle", str "A")]%string)]
           (u "track")
    = Some (dict [("title", str "T"); ("subtitle", str "A")]%string) /\
  extract_trackinfo_from_shazam
    (PDict [(u "track", dict [("title", str "T"); ("subtitle", str "A")]%string)])
  = Ok (Some (mkTrackInfo (normalize (u "A")) (normalize (u "T")) None PNone)).
Proof.
  split; [reflexivity|].
  apply (extract_minimal _
           (List.map (fun kv => (u (fst kv), snd kv))
                     [("title", str "T"); ("subtitle", str "A")]%string)
           (u "T") (u "A"));
    solve [reflexivity | discriminate].
Defined.

(** ** Collision-safe renamer, continued *)

Lemma probe_some (w : World) src stem ext : forall fuel i c,
  probe w src stem ext fuel i = Some (Ok c) ->
  path_exists w c = false /\
  exists k, i <= k /\ c = candidate src stem ext k /\
    forall j, i <= j < k -> path_exists w (candidate src stem ext j) = true.
Proof.
  induction fuel as [|fuel IH]; intros i c H; [discriminate|].
  cbn [probe] in H.
  destruct (with_name src (candidate_name stem ext i)) as [cand|e] eqn:Ew;
    [|discriminate].
  apply with_name_ok in Ew as (_ & _ & _ & _ & ->).
  change (mkPath (parent src) (candidate_name stem ext i))
    with (candidate src stem ext i) in H.
  destruct (path_exists w (candidate src stem ext i)) eqn:Ex; cbn [negb] in H.
  - apply IH in H as (Hfree & k & Hk & -> & Hall). split; [exact Hfree|].
    exists k. split; [lia|]. split; [reflexivity|].
    intros j Hj. destruct (N.eq_dec j i) as [->|]; [exact Ex | apply Hall; lia].
  - injection H as <-. split; [exact Ex|]. exists i.
    split; [lia|]. split; [reflexivity|]. intros j Hj. lia.
Qed.

Lemma path_exists_false (w : World) p : path_exists w p = false -> w !! p = None.
Proof. unfold path_exists. destruct (w !! p); [discriminate | reflexivity]. Qed.

Lemma path_rename_cases env src dest (w : World) o w' :
  path_rename env src dest w = (o, w') ->
  match o with
  | Normal _ => exists f, w !! src = Some f /\ w' = <[dest := f]> (delete src w)
  | Raised _ => w' = w
  | Continue => False
  end.
Proof.
  unfold path_rename. destruct (rename_error env src dest).
  - intros [= <- <-]. reflexivity.
  - destruct (w !! src) as [f|]; intros [= <- <-]; eauto.
Qed.

(** Every way out of [safe_rename]. *)
Lemma safe_rename_cases env src target (w : World) o w' :
  safe_rename env src target w = (o, w') ->
  match o with
  | Normal p =>
      (p = src /\ target = name src /\ w' = w) \/
      (p <> src /\ w !! p = None /\
       (exists f, w !! src = Some f /\ w' = <[p := f]> (delete src w)) /\
       (p = mkPath (parent src) target \/
        path_exists w (mkPath (parent src) target) = true /\
        exists k, 1 <= k /\
          p = candidate src (fst (splitext target)) (snd (splitext target)) k /\
          forall j, 1 <= j < k ->
            path_exists w (candidate src (fst (splitext target))
                                     (snd (splitext target)) j) = true))
  | Raised _ => w' = w
  | Continue => False
  end.
Proof.
  unfold safe_rename, bind, lift_res, get, ret, raise.
  destruct (with_name src target) as [dest|e] eqn:Ew; [|intros [= <- <-]; reflexivity].
  apply with_name_ok in Ew as (_ & _ & _ & _ & ->).
  case_bool_decide as Hd.
  { intros [= <- <-]. left. split; [reflexivity|]. split; [|reflexivity].
    rewrite <- Hd. reflexivity. }
  destruct (path_exists w (mkPath (parent src) target)) eqn:Ex; cbn [negb].
  - destruct (splitext target) as [stem ext]. cbn [fst snd].
    destruct (probe w src stem ext (S (size w)) 1) as [[c|e]|] eqn:Ep.
    + apply probe_some in Ep as (Hfree & k & Hk & -> & Hall).
      destruct (path_rename env src (candidate src stem ext k) w) as [[[]|e|] w1] eqn:Er;
        apply path_rename_cases in Er; intros [= <- <-]; [|exact Er | exact Er].
      destruct Er as (f & Hf & ->). right.
      apply path_exists_false in Hfree.
      split; [intros E; rewrite E in Hfree; congruence|].
      split; [exact Hfree|]. split; [eauto|]. right. eauto.
    + intros [= <- <-]. reflexivity.
    + intros [= <- <-]. reflexivity.
  - destruct (path_rename env src (mkPath (parent src) target) w) as [[[]|e|] w1] eqn:Er;
      apply path_rename_cases in Er; intros [= <- <-]; [|exact Er | exact Er].
    destruct Er as (f & Hf & ->). right. apply path_exists_false in Ex.
    split; [exact Hd|]. split; [exact Ex|]. split; [eauto|]. left. reflexivity.
Qed.

(** X13. A successful [safe_rename] never overwrites and never loses a
    file: the returned path is in the directory of the source and holds
    what the source held; unless it is the source itself, it did not
    exist before and the source is gone; every other path is as it was. *)
Theorem safe_rename_no_clobber env src target (w : World) p w' :
  safe_rename env src target w = (Normal p, w') ->
  parent p = parent src /\
  w' !! p = w !! src /\
  (p <> src -> w !! p = None /\ w' !! src = None) /\
  (forall q, q <> src -> q <> p -> w' !! q = w !! q).
Proof.
  intros H. apply safe_rename_cases in H.
  destruct H as [(-> & _ & ->) | (Hne & Hfree & (f & Hf & ->) & Hname)].
  - split; [reflexivity|]. split; [reflexivity|]. split.
    + intros Hn. contradiction.
    + reflexivity.
  - split; [destruct Hname as [-> | (_ & k & _ & -> & _)]; reflexivity|].
    split; [rewrite lookup_insert_eq; congruence|]. split.
    + intros _. split; [exact Hfree|].
      rewrite lookup_insert_ne by exact Hne. apply lookup_delete_eq.
    + intros q Hq1 Hq2.
      rewrite lookup_insert_ne by congruence. apply lookup_delete_ne. congruence.
Qed.

Lemma safe_rename_no_clobber_witness :
  safe_rename quiet_env (music "other.mp3") (u "A.mp3") crowded
  = (Normal (music "A (2).mp3"),
     snd (safe_rename quiet_env (music "other.mp3") (u "A.mp3") crowded)) /\
  snd (safe_rename quiet_env (music "other.mp3") (u "A.mp3") crowded)
    !! music "A.mp3" = crowded !! music "A.mp3".
Proof.
  assert (H : safe_rename quiet_env (music "other.mp3") (u "A.mp3") crowded
    = (Normal (music "A (2).mp3"),
       snd (safe_rename quiet_env (music "other.mp3") (u "A.mp3") crowded)))
    by (vm_compute; reflexivity).
  split; [exact H|].
  apply (proj2 (proj2 (proj2 (safe_rename_no_clobber _ _ _ _ _ _ H)))); discriminate.
Defined.

(** X14. When [safe_rename] raises (an invalid name, a refused or failed
    rename), the disk is as it was. *)
Theorem safe_rename_failure_unchanged env src target (w : World) e w' :
  safe_rename env src target w = (Raised e, w') -> w' = w.
Proof. intros H. exact (safe_rename_cases _ _ _ _ _ _ H). Qed.

Lemma safe_rename_failure_unchanged_witness :
  safe_rename read_only_env (music "other.mp3") (u "B.mp3") crowded
  = (Raised (Exn OSError (u "Permission denied")),
     snd (safe_rename read_only_env (music "other.mp3") (u "B.mp3") crowded)) /\
  snd (safe_rename read_only_env (music "other.mp3") (u "B.mp3") crowded) = crowded.
Proof.
  assert (H : safe_rename read_only_env (music "other.mp3") (u "B.mp3") crowded
    = (Raised (Exn OSError (u "Permission denied")),
       snd (safe_rename read_only_env (music "other.mp3") (u "B.mp3") crowded)))
    by (vm_compute; reflexivity).
  split; [exact H|]. exact (safe_rename_failure_unchanged _ _ _ _ _ _ H).
Defined.

(** X15. The path that a successful [safe_rename] returns, when it is
    not the source path itself, was free before the call, and it is the
    target itself when that was free; otherwise it is the target with the
    suffix of the LEAST number [k >= 1], put before the extension, whose
    name was free -- the target and every smaller number were taken.
    This reads the same whatever the platform takes for equal paths: a
    call that finds source and target equal returns the source. *)
Theorem safe_rename_least_suffix env src target (w : World) p w' :
  safe_rename env src target w = (Normal p, w') ->
  p <> src ->
  path_exists w p = false /\
  (p = mkPath (parent src) target \/
   path_exists w (mkPath (parent src) target) = true /\
   exists k, 1 <= k /\
     name p = fst (splitext target) ++ u " (" ++ py_str_int k ++ u ")"
              ++ snd (splitext target) /\
     forall j, 1 <= j < k ->
       path_exists w (mkPath (parent src)
                        (fst (splitext target) ++ u " (" ++ py_str_int j ++ u ")"
                         ++ snd (splitext target))) = true).
Proof.
  intros H Hne. apply safe_rename_cases in H.
  destruct H as [(E & _) | (_ & Hfree & _ & Hname)]; [contradiction|].
  split; [unfold path_exists; rewrite Hfree; reflexivity|].
  destruct Hname as [-> | (Hex & k & Hk & -> & Hall)]; [left; reflexivity|].
  right. split; [exact Hex|]. exists k. split; [exact Hk|].
  split; [reflexivity|]. exact Hall.
Qed.

Lemma safe_rename_least_suffix_witness :
  safe_rename quiet_env (music "other.mp3") (u "A.mp3") crowded
  = (Normal (music "A (2).mp3"),
     snd (safe_rename quiet_env (music "other.mp3") (u "A.mp3") crowded)) /\
  music "A (2).mp3" <> music "other.mp3" /\
  path_exists crowded (music "A (2).mp3") = false.
Proof.
  assert (H : safe_rename quiet_env (music "other.mp3") (u "A.mp3") crowded
    = (Normal (music "A (2).mp3"),
       snd (safe_rename quiet_env (music "other.mp3") (u "A.mp3") crowded)))
    by (vm_compute; reflexivity).
  assert (Hne : music "A (2).mp3" <> music "other.mp3") by discriminate.
  split; [exact H|]. split; [exact Hne|].
  exact (proj1 (safe_rename_least_suffix _ _ _ _ _ _ H Hne)).
Defined.



(** ** Tag writer, continued *)

Lemma delall_unmanaged tags :
  delall (u "APIC") (delall (u "TALB") (delall (u "TPE1") (delall (u "TIT2") tags)))
  = List.filter (fun f => negb (managed f)) tags.
Proof.
  unfold delall, managed. induction tags as [|f tags IH]; [reflexivity|].
  cbn [List.filter].
  destruct (bool_decide (frame_id f = u "TIT2")); cbn [negb orb List.filter];
    [exact IH|].
  destruct (bool_decide (frame_id f = u "TPE1")); cbn [negb orb List.filter];
    [exact IH|].
  destruct (bool_decide (frame_id f = u "TALB")); cbn [negb orb List.filter];
    [exact IH|].
  destruct (bool_decide (frame_id f = u "APIC")); cbn [negb orb List.filter];
    [exact IH|].
  rewrite IH. reflexivity.
Qed.

Lemma embed_cover_fetched env track tags :
  embed_cover env track tags
  = (tags ++ match fetched_cover env track with
             | Some data => [APIC (sniff_image_mime data) data]
             | None => []
             end,
     match fetched_cover env track with Some _ => true | None => false end).
Proof.
  unfold embed_cover, fetched_cover, add_frame.
  destruct (truthy (cover_url track)); [|rewrite app_nil_r; reflexivity].
  destruct (fetch_cover env (cover_url track)); [reflexivity|].
  rewrite app_nil_r. reflexivity.
Qed.

(** Every way out of [update_tags]. *)
Lemma update_tags_cases env p track (w : World) o w' :
  update_tags env p track w = (o, w') ->
  match o with
  | Normal (ok, art) =>
      ok = true /\
      art = match fetched_cover env track with Some _ => true | None => false end /\
      open_error env p = None /\ save_error env p = None /\
      exists old, w !! p = Some old /\
        w' = <[p := Some (List.filter (fun f => negb (managed f)) (ensure_id3 old)
                          ++ written_frames track (fetched_cover env track))]> w
  | Raised e =>
      w' = w \/
      (open_error env p = None /\ save_error env p = Some e /\
       exists old t, w !! p = Some old /\ w' = <[p := t]> w)
  | Continue => False
  end.
Proof.
  rewrite update_tags_unfold. cbv zeta.
  destruct (open_error env p); [intros [= <- <-]; left; reflexivity|].
  destruct (w !! p) as [old|]; [|intros [= <- <-]; left; reflexivity].
  destruct (save_error env p).
  { intros [= <- <-]. right. repeat split. eauto. }
  intros [= <- <-]. rewrite embed_cover_fetched. cbn [fst snd].
  repeat split. exists old. split; [reflexivity|].
  rewrite delall_unmanaged. unfold written_frames, add_frame.
  do 2 f_equal. destruct (album track) as [[|c a]|];
    rewrite <- !app_assoc; reflexivity.
Qed.

(** Whatever its outcome, [update_tags] leaves every other path alone. *)
Lemma update_tags_frame env p track (w : World) o w' :
  update_tags env p track w = (o, w') ->
  forall q, q <> p -> w' !! q = w !! q.
Proof.
  intros H q Hq. apply update_tags_cases in H. destruct o as [[ok art]|e|].
  - destruct H as (_ & _ & _ & _ & old & _ & ->).
    apply lookup_insert_ne. congruence.
  - destruct H as [-> | (_ & _ & old & t & _ & ->)]; [reflexivity|].
    apply lookup_insert_ne. congruence.
  - contradiction.
Qed.

(** X17. When [update_tags] raises, no file other than its own is
    touched and no path appears or disappears.  Nothing is written before
    the save: if the disk is not as it was, the file was opened and it is
    the save that failed, with the exception raised. *)
Theorem update_tags_failure_frame env p track (w : World) e w' :
  update_tags env p track w = (Raised e, w') ->
  (forall q, q <> p -> w' !! q = w !! q) /\
  (forall q, is_Some (w' !! q) <-> is_Some (w !! q)) /\
  (w' <> w ->
   open_error env p = None /\ is_Some (w !! p) /\ save_error env p = Some e).
Proof.
  intros H. apply update_tags_cases in H.
  destruct H as [-> | (Ho & Hs & old & t & Hold & ->)].
  - repeat split; auto; contradiction.
  - split; [|split].
    + intros q Hq. apply lookup_insert_ne. congruence.
    + intros q. destruct (decide (p = q)) as [<-|Hq].
      * rewrite lookup_insert_eq, Hold. split; eauto.
      * rewrite lookup_insert_ne by exact Hq. reflexivity.
    + intros _. rewrite Hold. eauto.
Qed.

Lemma update_tags_failure_frame_witness :
  update_tags torn_save_env (music "other.mp3") covered_track crowded
  = (Raised (Exn OSError (u "No space left on device")),
     <[music "other.mp3" := None]> crowded) /\
  <[music "other.mp3" := None]> crowded !! music "A.mp3"
  = crowded !! music "A.mp3" /\
  save_error torn_save_env (music "other.mp3")
  = Some (Exn OSError (u "No space left on device")).
Proof.
  assert (H : update_tags torn_save_env (music "other.mp3") covered_track crowded
    = (Raised (Exn OSError (u "No space left on device")),
       <[music "other.mp3" := None]> crowded))
    by (rewrite update_tags_unfold; reflexivity).
  destruct (update_tags_failure_frame _ _ _ _ _ _ H) as (Hf & _ & Hs).
  split; [exact H|]. split.
  - apply Hf. discriminate.
  - apply Hs. intros E.
    assert (E' : <[music "other.mp3" := None]> crowded !! music "other.mp3"
                 = crowded !! music "other.mp3") by (rewrite E; reflexivity).
    rewrite lookup_insert_eq in E'. vm_compute in E'. discriminate E'.
Defined.

(** X18. A successful [update_tags] changes the tag of its file and
    nothing else: every other path is as it was, and no path appears or
    disappears. *)
Theorem update_tags_one_file env p track (w : World) r w' :
  update_tags env p track w = (Normal r, w') ->
  (forall q, q <> p -> w' !! q = w !! q) /\
  (forall q, is_Some (w' !! q) <-> is_Some (w !! q)).
Proof.
  intros H. apply update_tags_cases in H. destruct r as [ok art].
  destruct H as (_ & _ & _ & _ & old & Hold & ->). split.
  - intros q Hq. apply lookup_insert_ne. congruence.
  - intros q. destruct (decide (p = q)) as [<-|Hq].
    + rewrite lookup_insert_eq, Hold. split; eauto.
    + rewrite lookup_insert_ne by exact Hq. reflexivity.
Qed.

Lemma update_tags_one_file_witness :
  update_tags quiet_env (music "other.mp3") covered_track crowded
  = (Normal (true, false),
     snd (update_tags quiet_env (music "other.mp3") covered_track crowded)) /\
  snd (update_tags quiet_env (music "other.mp3") covered_track crowded)
    !! music "A.mp3" = crowded !! music "A.mp3".
Proof.
  assert (H : update_tags quiet_env (music "other.mp3") covered_track crowded
    = (Normal (true, false),
       snd (update_tags quiet_env (music "other.mp3") covered_track crowded)))
    by (vm_compute; reflexivity).
  split; [exact H|].
  apply (proj1 (update_tags_one_file _ _ _ _ _ _ H)). discriminate.
Defined.

Lemma filter_unmanaged_idem tags :
  List.filter (fun f => negb (managed f)) (List.filter (fun f => negb (managed f)) tags)
  = List.filter (fun f => negb (managed f)) tags.
Proof.
  induction tags as [|f tags IH]; [reflexivity|]. cbn [List.filter].
  destruct (negb (managed f)) eqn:E; [|exact IH].
  cbn [List.filter]. rewrite E, IH. reflexivity.
Qed.

Lemma filter_managed_unmanaged tags :
  List.filter managed (List.filter (fun f => negb (managed f)) tags) = [].
Proof.
  induction tags as [|f tags IH]; [reflexivity|]. cbn [List.filter].
  destruct (managed f) eqn:E; cbn [negb]; [exact IH|].
  cbn [List.filter]. rewrite E. exact IH.
Qed.

Lemma written_frames_managed track cover :
  List.filter managed (written_frames track cover) = written_frames track cover /\
  List.filter (fun f => negb (managed f)) (written_frames track cover) = [].
Proof.
  unfold written_frames.
  destruct (album track) as [[|c a]|]; destruct cover; split; reflexivity.
Qed.

(** X19. A successful [update_tags] replaces, it does not merge: on
    disk the frames of the four kinds it manages (title, artist, album,
    picture) are exactly the title, the artist, the album if the track has
    a non-empty one, and the picture if a cover was fetched, with its
    sniffed type; all other frames are kept, in order. *)
Theorem update_tags_full_replace env p track (w : World) r w' :
  update_tags env p track w = (Normal r, w') ->
  exists old new,
    w !! p = Some old /\ w' !! p = Some (Some new) /\
    List.filter managed new = written_frames track (fetched_cover env track) /\
    List.filter (fun f => negb (managed f)) new
    = List.filter (fun f => negb (managed f)) (ensure_id3 old).
Proof.
  intros H. apply update_tags_cases in H. destruct r as [ok art].
  destruct H as (_ & _ & _ & _ & old & Hold & ->).
  eexists old, _. split; [exact Hold|]. split; [apply lookup_insert_eq|].
  destruct (written_frames_managed track (fetched_cover env track)) as [Hm Hu].
  rewrite !List.filter_app, Hm, Hu, filter_managed_unmanaged, filter_unmanaged_idem.
  rewrite app_nil_r. split; reflexivity.
Qed.

Lemma update_tags_full_replace_witness :
  update_tags cover_env (music "x.mp3") covered_track library
  = (Normal (true, true),
     snd (update_tags cover_env (music "x.mp3") covered_track library)) /\
  exists new,
    snd (update_tags cover_env (music "x.mp3") covered_track library)
      !! music "x.mp3" = Some (Some new) /\
    List.filter managed new
    = [TIT2 (u "T"); TPE1 (u "A");
       APIC (u "image/png") [137; 80; 78; 71; 13; 10]].
Proof.
  assert (H : update_tags cover_env (music "x.mp3") covered_track library
    = (Normal (true, true),
       snd (update_tags cover_env (music "x.mp3") covered_track library)))
    by (vm_compute; reflexivity).
  split; [exact H|].
  destruct (update_tags_full_replace _ _ _ _ _ _ H) as (old & new & _ & Hn & Hm & _).
  exists new. split; [exact Hn|]. rewrite Hm. vm_compute. reflexivity.
Defined.

(** X20. Writing the tags twice is writing them once: after a successful
    [update_tags], a second run with the same collaborators returns the
    same pair and leaves the disk as the first run left it. *)
Theorem update_tags_idempotent env p track (w : World) r w' :
  update_tags env p track w = (Normal r, w') ->
  update_tags env p track w' = (Normal r, w').
Proof.
  intros H. apply update_tags_cases in H. destruct r as [ok art].
  destruct H as (-> & -> & Ho & Hs & old & Hold & ->).
  rewrite update_tags_unfold, Ho, Hs, lookup_insert_eq. cbv zeta.
  rewrite embed_cover_fetched. cbn [fst snd]. f_equal.
  rewrite insert_insert_eq. do 2 f_equal.
  rewrite delall_unmanaged. cbn [ensure_id3].
  destruct (written_frames_managed track (fetched_cover env track)) as [_ Hu].
  rewrite List.filter_app, Hu, filter_unmanaged_idem, app_nil_r.
  unfold written_frames, add_frame.
  destruct (album track) as [[|c a]|]; rewrite <- !app_assoc; reflexivity.
Qed.

Lemma update_tags_idempotent_witness :
  update_tags cover_env (music "x.mp3") covered_track library
  = (Normal (true, true),
     snd (update_tags cover_env (music "x.mp3") covered_track library)) /\
  update_tags cover_env (music "x.mp3") covered_track
    (snd (update_tags cover_env (music "x.mp3") covered_track library))
  = (Normal (true, true),
     snd (update_tags cover_env (music "x.mp3") covered_track library)).
Proof.
  assert (H : update_tags cover_env (music "x.mp3") covered_track library
    = (Normal (true, true),
       snd (update_tags cover_env (music "x.mp3") covered_track library)))
    by (vm_compute; reflexivity).
  split; [exact H|]. exact (update_tags_idempotent _ _ _ _ _ _ H).
Defined.

(** X21. [art_ok] is true exactly when the track has a cover URL and its
    fetch does not raise. *)
Theorem update_tags_art_ok env p track (w : World) ok art w' :
  update_tags env p track w = (Normal (ok, art), w') ->
  art = true <->
  truthy (cover_url track) = true /\
  exists data, fetch_cover env (cover_url track) = Ok data.
Proof.
  intros H. apply update_tags_cases in H. destruct H as (_ & -> & _).
  unfold fetched_cover. destruct (truthy (cover_url track)).
  - destruct (fetch_cover env (cover_url track)) as [data|e].
    + split; eauto.
    + split; [discriminate | intros [_ [data [=]]]].
  - split; [discriminate | intros [[=] _]].
Qed.

Lemma update_tags_art_ok_witness :
  update_tags cover_env (music "x.mp3") covered_track library
  = (Normal (true, true),
     snd (update_tags cover_env (music "x.mp3") covered_track library)) /\
  truthy (cover_url covered_track) = true.
Proof.
  assert (H : update_tags cover_env (music "x.mp3") covered_track library
    = (Normal (true, true),
       snd (update_tags cover_env (music "x.mp3") covered_track library)))
    by (vm_compute; reflexivity).
  split; [exact H|].
  exact (proj1 (proj1 (update_tags_art_ok _ _ _ _ _ _ _ H) eq_refl)).
Defined.

(** ** Per-file pipeline and batch, continued *)

(** One iteration of the loop takes one step on the disk, appends its
    result and counts it once. *)
Lemma loop_body_step env args p s :
  exists r w',
    file_step env args p (world s) r w' /\
    snd (loop_body env args p s)
    = mkState w' r (results s ++ [r])
        (processed s + Nat.b2n (fully_tagged r))
        (unidentified s + Nat.b2n (skipped r))
        (errors s + Nat.b2n (has_error r)).
Proof.
  destruct s as [w r0 rs np nu ne]. cbn [world results processed unidentified errors].
  cbv [loop_body try_block].
  destruct (shazam_identify_file env p) as [ti|] eqn:Eid.
  2:{ eexists _, w. split; [apply step_skipped; exact Eid|].
      cbn. rewrite !Nat.add_0_r, Nat.add_1_r. reflexivity. }
  destruct (dry_run args) eqn:Ed.
  { rewrite andb_false_r. eexists _, w.
    split; [apply (step_preview _ _ _ _ ti); assumption|].
    cbn. rewrite !Nat.add_0_r, Nat.add_1_r. reflexivity. }
  cbn [negb]. rewrite andb_true_r.
  set (new_name := make_target_filename (artist ti) (title ti) (album ti)).
  destruct (bool_decide (new_name = name p)) eqn:En; cbn [negb].
  - apply bool_decide_eq_true in En.
    cbv [bind modify try_except ret on_world world result results processed
         unidentified errors upd_result set_world snd].
    pose proof (nc_update_tags env p ti w) as Hnc.
    destruct (update_tags env p ti w) as [[[ok art]|e|] w1] eqn:Eu.
    + pose proof (update_tags_tags_ok _ _ _ _ _ _ _ Eu) as ->.
      eexists _, w1. split; [eapply step_tagged; eassumption|].
      cbn. rewrite !Nat.add_0_r, Nat.add_1_r. reflexivity.
    + eexists _, w1. split; [eapply step_tag_failed; eassumption|].
      cbn. rewrite !Nat.add_0_r, Nat.add_1_r. reflexivity.
    + exfalso. apply Hnc. reflexivity.
  - apply bool_decide_eq_false in En.
    cbv [bind modify try_except ret on_world world result results processed
         unidentified errors upd_result set_world snd].
    pose proof (nc_safe_rename env p new_name w) as Hnc.
    destruct (safe_rename env p new_name w) as [[path|e|] w1] eqn:Es.
    + pose proof (nc_update_tags env path ti w1) as Hnc2.
      destruct (update_tags env path ti w1) as [[[ok art]|e|] w2] eqn:Eu.
      * pose proof (update_tags_tags_ok _ _ _ _ _ _ _ Eu) as ->.
        eexists _, w2. split; [eapply step_renamed_tagged; eassumption|].
        cbn. rewrite !Nat.add_0_r, Nat.add_1_r. reflexivity.
      * eexists _, w2. split; [eapply step_renamed_tag_failed; eassumption|].
        cbn. rewrite !Nat.add_0_r, Nat.add_1_r. reflexivity.
      * exfalso. apply Hnc2. reflexivity.
    + eexists _, w1. split; [eapply step_rename_failed; eassumption|].
      cbn. rewrite !Nat.add_0_r, Nat.add_1_r. reflexivity.
    + exfalso. apply Hnc. reflexivity.
Qed.

Lemma run_loop_steps env args files : forall s,
  exists rs w',
    batch_steps env args files (world s) rs w' /\
    results (run_loop env args files s) = results s ++ rs /\
    world (run_loop env args files s) = w'.
Proof.
  induction files as [|p files IH]; intros s.
  - exists [], (world s). split; [constructor|]. cbn. rewrite app_nil_r. auto.
  - destruct (loop_body_step env args p s) as (r & w1 & Hstep & Hs).
    destruct (IH (snd (loop_body env args p s))) as (rs & w2 & Hb & Hr & Hw).
    exists (r :: rs), w2. cbn [run_loop]. rewrite Hr, Hw.
    rewrite Hs in Hb |- *. cbn [world results] in Hb |- *.
    split; [econstructor; eassumption|].
    rewrite <- app_assoc. auto.
Qed.

(** A run takes the steps of its files, in order. *)
Lemma process_files_steps env args files (w : World) :
  batch_steps env args files w
    (sum_results (fst (process_files_async env args files w)))
    (snd (process_files_async env args files w)).
Proof.
  destruct (run_loop_steps env args files (initial_state w)) as (rs & w' & Hb & Hr & Hw).
  cbn. rewrite Hr, Hw. exact Hb.
Qed.

Lemma batch_steps_Forall env args (P : FileResult -> Prop) :
  (forall p w r w', file_step env args p w r w' -> P r) ->
  forall files w rs w', batch_steps env args files w rs w' -> Forall P rs.
Proof.
  intros HP files w rs w' H. induction H; constructor; eauto.
Qed.

(** The step of a file is determined by the disk. *)
Lemma file_step_det env args p w r1 w1 r2 w2 :
  file_step env args p w r1 w1 -> file_step env args p w r2 w2 ->
  r1 = r2 /\ w1 = w2.
Proof.
  intros H1 H2.
  destruct H1; destruct H2;
    repeat match goal with
    | H : shazam_identify_file env p = _, H' : shazam_identify_file env p = _ |- _ =>
        rewrite H in H'; first [discriminate | injection H' as <- | clear H']
    | H : dry_run args = _, H' : dry_run args = _ |- _ =>
        rewrite H in H'; first [discriminate | clear H']
    | H : ?x = name p, H' : ?x <> name p |- _ => contradiction
    | H : safe_rename env p ?t w = _, H' : safe_rename env p ?t w = _ |- _ =>
        rewrite H in H'; first [discriminate | injection H' as <- <- | injection H' as <-]
    | H : update_tags env ?q ?ti ?v = _, H' : update_tags env ?q ?ti ?v = _ |- _ =>
        rewrite H in H'; first [discriminate | injection H' as <- <- | injection H' as <-]
    end; auto.
Qed.

Lemma batch_steps_det env args files : forall w rs1 w1 rs2 w2,
  batch_steps env args files w rs1 w1 -> batch_steps env args files w rs2 w2 ->
  rs1 = rs2 /\ w1 = w2.
Proof.
  induction files as [|p files IH]; intros w rs1 w1 rs2 w2 H1 H2;
    inversion H1; inversion H2; subst; [auto|].
  match goal with
  | Ha : file_step env args p w ?r ?wa, Hb : file_step env args p w ?r' ?wb |- _ =>
      destruct (file_step_det _ _ _ _ _ _ _ _ Ha Hb) as [-> ->]
  end.
  match goal with
  | Ha : batch_steps env args files ?v ?ra ?wa,
    Hb : batch_steps env args files ?v ?rb ?wb |- _ =>
      destruct (IH _ _ _ _ _ Ha Hb) as [-> ->]
  end. auto.
Qed.

Lemma batch_steps_app env args f1 : forall f2 w rs1 w1 rs2 w2,
  batch_steps env args f1 w rs1 w1 -> batch_steps env args f2 w1 rs2 w2 ->
  batch_steps env args (f1 ++ f2) w (rs1 ++ rs2) w2.
Proof.
  induction f1 as [|p f1 IH]; intros f2 w rs1 w1 rs2 w2 H1 H2;
    inversion H1; subst; [exact H2|].
  cbn [app]. econstructor; [eassumption|]. eapply IH; eassumption.
Qed.

Lemma safe_rename_parent env src target (w : World) p w' :
  safe_rename env src target w = (Normal p, w') -> parent p = parent src.
Proof.
  intros H. apply safe_rename_cases in H.
  destruct H as [(-> & _) | (_ & _ & _ & [-> | (_ & k & _ & -> & _)])]; reflexivity.
Qed.

Lemma file_step_flags env args p w r w' :
  file_step env args p w r w' -> flags_consistent r.
Proof.
  unfold flags_consistent.
  destruct 1; cbn;
    repeat match goal with
    | |- _ /\ _ => split
    | |- _ <-> _ => split
    end; try (intros; auto; congruence).
Qed.

(** X22. The flags of every result of a run are consistent: a skipped
    file has no other flag and no error; a destination name that differs
    from the source name is that of a renamed file; [renamed] holds for
    identified files only; [art_ok] implies [tags_ok]; [tags_ok] implies
    identified and no error. *)
Theorem result_flags_consistent env args files (w : World) :
  Forall flags_consistent
         (sum_results (fst (process_files_async env args files w))).
Proof.
  eapply batch_steps_Forall; [|apply process_files_steps].
  intros p w0 r w'. apply file_step_flags.
Qed.

Lemma skipped_steps env args files (w : World) :
  (forall p, In p files -> shazam_identify_file env p = None) ->
  batch_steps env args files w (List.map skipped_result files) w.
Proof.
  induction files as [|p files IH]; intros H; [constructor|].
  cbn [List.map]. econstructor.
  - apply step_skipped, H. left. reflexivity.
  - apply IH. intros q Hq. apply H. right. exact Hq.
Qed.

Lemma count_skipped files :
  count_if fully_tagged (List.map skipped_result files) = O /\
  count_if skipped (List.map skipped_result files) = length files /\
  count_if has_error (List.map skipped_result files) = O.
Proof.
  unfold count_if. induction files as [|p files (IH1 & IH2 & IH3)]; [auto|].
  cbn. rewrite IH2. auto.
Qed.

(** X23. Files that are not identified are left alone, in preview mode
    or not: when no file of the list is identified, every result is the
    skipped result of its file, [unidentified] is the number of files,
    [processed] and [errors] are zero, and the disk is as it was. *)
Theorem unidentified_batch env args files (w : World) :
  (forall p, In p files -> shazam_identify_file env p = None) ->
  process_files_async env args files w
  = (mkSummary (List.map skipped_result files) 0 (length files) 0 (length files), w).
Proof.
  intros H.
  destruct (batch_steps_det _ _ _ _ _ _ _ _
              (process_files_steps env args files w)
              (skipped_steps env args files w H)) as [Hr Hw].
  pose proof (process_files_sound env args files w) as Hs. cbv zeta in Hs.
  destruct Hs as (_ & Hp & Hu & He & Ht & _).
  destruct (count_skipped files) as (C1 & C2 & C3).
  rewrite Hr in Hp, Hu, He. rewrite C1 in Hp. rewrite C2 in Hu. rewrite C3 in He.
  destruct (process_files_async env args files w) as [[rs a b c d] w'].
  cbn in *. subst. reflexivity.
Qed.

Lemma unidentified_batch_witness :
  (forall p, In p [music "y.mp3"] -> shazam_identify_file preview_env p = None) /\
  snd (process_files_async preview_env (mkArgs false false) [music "y.mp3"] library)
  = library.
Proof.
  assert (H : forall p, In p [music "y.mp3"] ->
                        shazam_identify_file preview_env p = None).
  { intros p [<- | []]. vm_compute. reflexivity. }
  split; [exact H|].
  rewrite (unidentified_batch preview_env (mkArgs false false) [music "y.mp3"] library H).
  reflexivity.
Defined.

(** X24. A run over a list in two parts is the run over the first part
    followed by the run over the second part on the disk that the first
    leaves: the results are those of the two runs, in order, the disk is
    the final one, and the counters add up.  So the results of earlier
    files do not depend on the files that follow. *)
Theorem process_files_app env args f1 f2 (w : World) :
  let r1 := process_files_async env args f1 w in
  let r2 := process_files_async env args f2 (snd r1) in
  let r := process_files_async env args (f1 ++ f2) w in
  sum_results (fst r) = sum_results (fst r1) ++ sum_results (fst r2) /\
  snd r = snd r2 /\
  sum_processed (fst r) = (sum_processed (fst r1) + sum_processed (fst r2))%nat /\
  sum_unidentified (fst r)
    = (sum_unidentified (fst r1) + sum_unidentified (fst r2))%nat /\
  sum_errors (fst r) = (sum_errors (fst r1) + sum_errors (fst r2))%nat /\
  sum_total (fst r) = (sum_total (fst r1) + sum_total (fst r2))%nat.
Proof.
  cbv zeta.
  pose proof (batch_steps_app _ _ _ _ _ _ _ _ _
                (process_files_steps env args f1 w)
                (process_files_steps env args f2
                   (snd (process_files_async env args f1 w)))) as Happ.
  destruct (batch_steps_det _ _ _ _ _ _ _ _
              (process_files_steps env args (f1 ++ f2) w) Happ) as [Hr Hw].
  pose proof (process_files_sound env args f1 w) as H1.
  pose proof (process_files_sound env args f2
                (snd (process_files_async env args f1 w))) as H2.
  pose proof (process_files_sound env args (f1 ++ f2) w) as H.
  cbv zeta in H1, H2, H.
  destruct H1 as (_ & -> & -> & -> & -> & _).
  destruct H2 as (_ & -> & -> & -> & -> & _).
  destruct H as (_ & -> & -> & -> & -> & _).
  rewrite Hr, !count_if_app, length_app. repeat split; auto.
Qed.

Lemma batch_steps_snoc_inv env args files p : forall w rs w',
  batch_steps env args (files ++ [p]) w rs w' ->
  exists rs0 r w1,
    rs = rs0 ++ [r] /\ batch_steps env args files w rs0 w1 /\
    file_step env args p w1 r w'.
Proof.
  induction files as [|q files IH]; intros w rs w' H; inversion H; subst.
  - match goal with Hb : batch_steps _ _ [] _ _ _ |- _ => inversion Hb; subst end.
    eexists [], _, w. split; [reflexivity|]. split; [constructor | eassumption].
  - match goal with Hb : batch_steps _ _ (files ++ [p]) _ _ _ |- _ =>
      apply IH in Hb as (rsa & ra & wa & -> & Hb0 & Hs) end.
    eexists (_ :: rsa), ra, wa. split; [reflexivity|].
    split; [econstructor; eassumption | exact Hs].
Qed.

Lemma update_tags_written env path ti (w : World) art w' :
  update_tags env path ti w = (Normal (true, art), w') ->
  exists tags, w' !! path = Some (Some tags) /\
    In (TIT2 (title ti)) tags /\ In (TPE1 (artist ti)) tags.
Proof.
  intros H. apply update_tags_cases in H.
  destruct H as (_ & _ & _ & _ & old & _ & ->).
  eexists. split; [apply lookup_insert_eq|].
  split; apply in_or_app; right; unfold written_frames; cbn; auto.
Qed.

(** X25. Outside preview mode, when the last file of a run ends
    identified and without error, then after the run the file is on disk,
    in its directory, under the destination name of its result, and its
    tag holds the title and the artist of the identified track. *)
Theorem last_file_on_disk env args files p (w : World) r :
  dry_run args = false ->
  last (sum_results (fst (process_files_async env args (files ++ [p]) w))) = Some r ->
  identified r = true -> error r = None ->
  exists ti tags,
    shazam_identify_file env p = Some ti /\
    snd (process_files_async env args (files ++ [p]) w)
      !! mkPath (parent p) (dest_name r) = Some (Some tags) /\
    In (TIT2 (title ti)) tags /\ In (TPE1 (artist ti)) tags.
Proof.
  intros Hd Hl Hi He.
  pose proof (process_files_steps env args (files ++ [p]) w) as Hb.
  apply batch_steps_snoc_inv in Hb as (rs0 & r' & w1 & Hrs & _ & Hs).
  rewrite Hrs, last_snoc in Hl. injection Hl as ->.
  destruct Hs; cbn in Hi, He; try congruence.
  - match goal with Hu : update_tags _ _ _ _ = _ |- _ =>
      apply update_tags_written in Hu as (tags & Htg & Htit & Hart) end.
    exists ti, tags. cbn [dest_name]. destruct p. cbn. auto.
  - match goal with Hr : safe_rename _ _ _ _ = _ |- _ =>
      apply safe_rename_parent in Hr as Hp end.
    match goal with Hu : update_tags _ _ _ _ = _ |- _ =>
      apply update_tags_written in Hu as (tags & Htg & Htit & Hart) end.
    exists ti, tags. cbn [dest_name]. rewrite <- Hp. destruct path. cbn. auto.
Qed.

Lemma last_file_on_disk_witness :
  dry_run (mkArgs false false) = false /\
  exists tags,
    snd (process_files_async preview_env (mkArgs false false)
           ([music "y.mp3"] ++ [music "x.mp3"]) library)
      !! music "Queen - Bohemian Rhapsody - A Night at the Opera.mp3"
    = Some (Some tags) /\
    In (TIT2 (u "Bohemian Rhapsody")) tags.
Proof.
  split; [reflexivity|].
  destruct (last_file_on_disk preview_env (mkArgs false false)
              [music "y.mp3"] (music "x.mp3") library
              (mkFileResult (u "x.mp3")
                 (u "Queen - Bohemian Rhapsody - A Night at the Opera.mp3")
                 true true true false false None))
    as (ti & tags & Hti & Hw & H1 & _);
    try reflexivity.
  exists tags. split; [exact Hw|].
  vm_compute in Hti. injection Hti as <-. exact H1.
Defined.

Lemma file_step_bits env args p w r w' :
  file_step env args p w r w' ->
  (summary_bits r = [] <-> error r = Some [] /\ renamed r = false) /\
  (verbose_flags r = [] <-> error r = Some [] /\ renamed r = false) /\
  (skipped r = true -> summary_bits r = [SKIP]).
Proof.
  unfold summary_bits, verbose_flags, error_truthy.
  destruct 1; cbn; try destruct art; try (destruct (truthy (cover_url ti)));
    try (destruct (py_str_exn e)); cbn;
    repeat split; try discriminate; try tauto;
    try (intros [? ?]; discriminate); try (intros [? ?]; congruence).
Qed.

(** X26. The status column of a result of a run is empty (shown as a
    dash in the summary and as no-op in the verbose log) exactly when the
    file failed with an empty error message before any rename; a skipped
    file shows the SKIP flag alone. *)
Theorem summary_bits_empty env args files (w : World) :
  Forall (fun r =>
            (summary_bits r = [] <-> error r = Some [] /\ renamed r = false) /\
            (verbose_flags r = [] <-> error r = Some [] /\ renamed r = false) /\
            (skipped r = true -> summary_bits r = [SKIP]))
         (sum_results (fst (process_files_async env args files w))).
Proof.
  eapply batch_steps_Forall; [|apply process_files_steps].
  intros p w0 r w'. apply file_step_bits.
Qed.

Lemma file_step_frame env args p (w : World) r w' :
  file_step env args p w r w' ->
  forall q, parent q <> parent p -> w' !! q = w !! q.
Proof.
  assert (Hu : forall path ti (v : World) o v', update_tags env path ti v = (o, v') ->
            forall q, parent q <> parent path -> v' !! q = v !! q).
  { intros path ti v o v' H q Hq. eapply update_tags_frame; [exact H|].
    intros ->. contradiction. }
  assert (Hr : forall t (v : World) path v', safe_rename env p t v = (Normal path, v') ->
            forall q, parent q <> parent p -> v' !! q = v !! q).
  { intros t v path v' H q Hq.
    pose proof (safe_rename_parent _ _ _ _ _ _ H) as Hp.
    apply safe_rename_cases in H.
    destruct H as [(_ & _ & ->) | (_ & _ & (f & _ & ->) & _)]; [reflexivity|].
    rewrite lookup_insert_ne by (intros ->; congruence).
    apply lookup_delete_ne. intros ->. contradiction. }
  destruct 1; intros q Hq; try reflexivity.
  - eapply Hu; eassumption.
  - eapply Hu; eassumption.
  - match goal with H : safe_rename _ _ _ _ = (Raised _, _) |- _ =>
      apply safe_rename_cases in H; subst end. reflexivity.
  - match goal with H : safe_rename _ _ _ _ = (Normal _, _) |- _ =>
      pose proof (safe_rename_parent _ _ _ _ _ _ H) as Hp;
      pose proof (Hr _ _ _ _ H q Hq) as E1 end.
    rewrite <- E1. eapply Hu; [eassumption|]. congruence.
  - match goal with H : safe_rename _ _ _ _ = (Normal _, _) |- _ =>
      pose proof (safe_rename_parent _ _ _ _ _ _ H) as Hp;
      pose proof (Hr _ _ _ _ H q Hq) as E1 end.
    rewrite <- E1. eapply Hu; [eassumption|]. congruence.
Qed.

(** X27. A run touches only the directories of its files: a path whose
    directory is the directory of none of the files is after the run what
    it was before. *)
Theorem other_directories_untouched env args files (w : World) q :
  (forall p, In p files -> parent p <> parent q) ->
  snd (process_files_async env args files w) !! q = w !! q.
Proof.
  intros H. pose proof (process_files_steps env args files w) as Hb.
  induction Hb as [|p files w0 r w1 rs w2 Hs Hb IH]; [reflexivity|].
  rewrite IH by (intros p' Hp'; apply H; right; exact Hp').
  eapply file_step_frame; [exact Hs|].
  intros E. apply (H p); [left; reflexivity | congruence].
Qed.

Lemma other_directories_untouched_witness :
  (forall p, In p [music "x.mp3"] -> parent p <> parent (mkPath (u "/other") (u "z.mp3"))) /\
  snd (process_files_async preview_env (mkArgs false false) [music "x.mp3"] library)
    !! mkPath (u "/other") (u "z.mp3")
  = library !! mkPath (u "/other") (u "z.mp3").
Proof.
  assert (H : forall p, In p [music "x.mp3"] ->
                        parent p <> parent (mkPath (u "/other") (u "z.mp3")))
    by (intros p [<- | []]; discriminate).
  split; [exact H|].
  exact (other_directories_untouched preview_env (mkArgs false false)
           [music "x.mp3"] library _ H).
Defined.
